(** * CRAQ: chain replication with apportioned queries

    A shallow embedding of [craq_server.py] (the per-replica request
    handlers) and of [craq_cluster.py] (the four-replica chain and the
    client's replica picker), with the properties of the handlers, of the
    chain and of the picker proved over it. *)

From stdpp Require Import gmap strings list fin_maps.
From Stdlib Require Import ZArith Lia SpecFloat.

Open Scope string_scope.
Open Scope Z_scope.

(** ** Python values and exceptions *)

(** The exceptions the handlers can raise, and the one a connection stub
    raises when the transport fails. *)
Inductive exn : Type :=
  | KeyError
  | TypeError
  | ValueError
  | AssertionError
  | IndexError
  | TransportError.

(** A call either returns a value or raises. *)
Inductive result (A : Type) : Type :=
  | Ret (a : A)
  | Raise (e : exn).
Arguments Ret {A} a.
Arguments Raise {A} e.

(** Sequencing: an exception skips the rest ([x ← r; k]). *)
#[global] Instance result_bind : MBind result := fun A B k r =>
  match r with
  | Ret a => k a
  | Raise e => Raise e
  end.

#[global] Instance exn_eq_dec : EqDecision exn.
Proof. solve_decision. Defined.

(** A version as the handlers see it: what [msg.get("ver")] yields, an
    [int] or [None].  The stores are keyed by whatever value that is
    (line 152 uses it as a dict key without looking at it). *)
Abbreviation pyver := (option Z).

(** [a < b] on versions: comparing [None] with anything raises. *)
Definition py_lt (a b : pyver) : result bool :=
  match a, b with
  | Some x, Some y => Ret (x <? y)
  | _, _ => Raise TypeError
  end.

(** [max(iterable)]: the first item, replaced by each later item that is
    greater than the running maximum; an empty iterable raises. *)
Fixpoint max_from (m : pyver) (l : list pyver) : result pyver :=
  match l with
  | [] => Ret m
  | x :: t => b ← py_lt m x; max_from (if b : bool then x else m) t
  end.

Definition py_max (l : list pyver) : result pyver :=
  match l with
  | [] => Raise ValueError
  | x :: t => max_from x t
  end.

(** [v + 1]. *)
Definition py_succ (v : pyver) : result pyver :=
  match v with
  | Some z => Ret (Some (z + 1))
  | None => Raise TypeError
  end.

(** ** Messages *)

(** A [JsonMessage] restricted to the fields the protocol reads and
    writes; [None] is an absent field ([msg.get] yields [None]). *)
Record JsonMessage : Type := mkMsg {
  j_type : option string;
  j_key : option string;
  j_val : option string;
  j_ver : pyver;
  j_status : option string
}.

#[global] Instance JsonMessage_eq_dec : EqDecision JsonMessage.
Proof. solve_decision. Defined.

Definition status_msg (s : string) : JsonMessage :=
  mkMsg None None None None (Some s).

(** [{"status": "OK", "val": v}] *)
Definition ok_val_msg (v : string) : JsonMessage :=
  mkMsg None None (Some v) None (Some "OK").

(** [{"ver": ver}] *)
Definition ver_msg (ver : pyver) : JsonMessage :=
  mkMsg None None None ver None.

(** [{"type": "QUERY", "key": key}] *)
Definition query_msg (key : string) : JsonMessage :=
  mkMsg (Some "QUERY") (Some key) None None None.

(** [{"type": "GET", "key": key}] *)
Definition get_msg (key : string) : JsonMessage :=
  mkMsg (Some "GET") (Some key) None None None.

(** [{"type": "SET", "key": key, "val": val}] *)
Definition set_msg (key val : string) : JsonMessage :=
  mkMsg (Some "SET") (Some key) (Some val) None None.

(** [req.version = ver]: writes the ["ver"] field of the message. *)
Definition set_version (m : JsonMessage) (ver : pyver) : JsonMessage :=
  mkMsg (j_type m) (j_key m) (j_val m) ver (j_status m).

(** The request wrappers: each constructor asserts the fields it needs. *)
Record KVGetRequest : Type := { get_key : string; get_json : JsonMessage }.
Record KVQueryRequest : Type := { query_key : string; query_json : JsonMessage }.
Record KVSetRequest : Type := {
  set_key : string;
  set_val : string;
  set_json : JsonMessage
}.

Definition mkKVGetRequest (msg : JsonMessage) : result KVGetRequest :=
  match j_key msg with
  | Some k => Ret {| get_key := k; get_json := msg |}
  | None => Raise AssertionError
  end.

Definition mkKVQueryRequest (msg : JsonMessage) : result KVQueryRequest :=
  match j_key msg with
  | Some k => Ret {| query_key := k; query_json := msg |}
  | None => Raise AssertionError
  end.

Definition mkKVSetRequest (msg : JsonMessage) : result KVSetRequest :=
  match j_key msg, j_val msg with
  | Some k, Some v => Ret {| set_key := k; set_val := v; set_json := msg |}
  | _, _ => Raise AssertionError
  end.

Definition version (req : KVSetRequest) : pyver := j_ver (set_json req).

Definition with_version (req : KVSetRequest) (ver : pyver) : KVSetRequest :=
  {| set_key := set_key req; set_val := set_val req;
     set_json := set_version (set_json req) ver |}.

(** ** A replica *)

(** The state of a [CraqServer]: its view of the chain, the dirty map
    [temp_store], the clean map [store], and the keys for which the
    [defaultdict] of locks holds a lock. *)
Record CraqServer : Type := mkServer {
  name : string;
  next : option string;
  prev : option string;
  tail : string;
  temp_store : gmap string (gmap pyver string);
  store : gmap string (pyver * string);
  locks : gset string
}.

(** [CraqServer.__init__] *)
Definition new_server (nm : string) (nxt prv : option string) (tl : string)
  : CraqServer :=
  mkServer nm nxt prv tl ∅ ∅ ∅.

(** [self.locks[key]]: the [defaultdict] creates the lock on first use.
    Handlers run one at a time here, so taking and releasing the lock
    leave nothing else behind. *)
Definition with_lock (self : CraqServer) (key : string) : CraqServer :=
  mkServer (name self) (next self) (prev self) (tail self)
           (temp_store self) (store self) ({[key]} ∪ locks self).

Definition set_temp_store (self : CraqServer)
    (ts : gmap string (gmap pyver string)) : CraqServer :=
  mkServer (name self) (next self) (prev self) (tail self)
           ts (store self) (locks self).

Definition set_store (self : CraqServer)
    (st : gmap string (pyver * string)) : CraqServer :=
  mkServer (name self) (next self) (prev self) (tail self)
           (temp_store self) st (locks self).

(** [key in self.temp_store and self.temp_store[key]]: the dirty map of
    the key, when it is there and not empty. *)
Definition dirty_versions (self : CraqServer) (key : string)
  : option (gmap pyver string) :=
  match temp_store self !! key with
  | Some d => if decide (d = ∅) then None else Some d
  | None => None
  end.

(** The keys of a dirty map, as [dict.keys()] hands them to [max]. *)
Definition keys (d : gmap pyver string) : list pyver := (map_to_list d).*1.

(** ** The request handlers *)

Section Handlers.

(** The connection stub is not among the source files: [send] is
    the call [self._connection_stub.send(from_=self._info.name,
    to=self.next, message=...)] of one replica.  It acts on the rest of
    the system, of state [W], and returns the peer's response or raises. *)
Context {W : Type}.
Variable send : JsonMessage -> W -> W * result JsonMessage.

(** The outcome of a handler: the replica and the rest of the system
    as the handler leaves them, and the response or the exception. *)
Definition outcome : Type := CraqServer * W * result JsonMessage.

(** [CraqServer._get] *)
Definition _get (self : CraqServer) (req : KVGetRequest) (w : W) : outcome :=
  let self := with_lock self (get_key req) in
  match dirty_versions self (get_key req) with
  | Some temp_versions_dict =>
      let '(w', r) := send (query_msg (get_key req)) w in
      match r with
      | Raise e => (self, w', Raise e)
      | Ret response =>
          let tail_committed_version := j_ver response in
          match temp_versions_dict !! tail_committed_version with
          | Some val => (self, w', Ret (ok_val_msg val))
          | None =>
              match store self !! get_key req with
              | Some (_, val) => (self, w', Ret (ok_val_msg val))
              | None => (self, w', Ret (status_msg "Key not found"))
              end
          end
      end
  | None =>
      match store self !! get_key req with
      | Some (_, val) => (self, w, Ret (ok_val_msg val))
      | None => (self, w, Ret (status_msg "Key not found"))
      end
  end.

(** [CraqServer._query] *)
Definition _query (self : CraqServer) (req : KVQueryRequest) (w : W)
  : outcome :=
  let self := with_lock self (query_key req) in
  match next self with
  | None =>
      match store self !! query_key req with
      | Some (ver, _) => (self, w, Ret (ver_msg ver))
      | None => (self, w, Raise KeyError)
      end
  | Some _ =>
      let '(w', r) := send (query_json req) w in (self, w', r)
  end.

(** The version the head gives a write, lines 141 to 147:
    [current_version + 1]. *)
Definition current_version (self : CraqServer) (key : string)
  : result pyver :=
  match dirty_versions self key with
  | Some d => py_max (keys d)
  | None =>
      match store self !! key with
      | Some (ver, _) => Ret ver
      | None => Ret (Some 0)
      end
  end.

(** [self.temp_store[key][ver] = val], after creating the inner dict
    when the key has none. *)
Definition dirty_insert (self : CraqServer) (key : string) (ver : pyver)
    (val : string) : CraqServer :=
  set_temp_store self
    (<[key := <[ver := val]> (default ∅ (temp_store self !! key))]>
       (temp_store self)).

(** [del self.temp_store[key][ver]] *)
Definition dirty_delete (self : CraqServer) (key : string) (ver : pyver)
  : result CraqServer :=
  match temp_store self !! key with
  | None => Raise KeyError
  | Some d =>
      match d !! ver with
      | None => Raise KeyError
      | Some _ =>
          Ret (set_temp_store self (<[key := delete ver d]> (temp_store self)))
      end
  end.

(** [self.store[key] = (ver, val)] *)
Definition clean_insert (self : CraqServer) (key : string) (ver : pyver)
    (val : string) : CraqServer :=
  set_store self (<[key := (ver, val)]> (store self)).

(** Lines 140 to 147 of [CraqServer._set]: the head stamps the request
    with [current_version + 1]; any other replica takes it as it is. *)
Definition stamp_version (self : CraqServer) (req : KVSetRequest)
  : result KVSetRequest :=
  match prev self with
  | None =>
      cv ← current_version self (set_key req);
      ver ← py_succ cv;
      Ret (with_version req ver)
  | Some _ => Ret req
  end.

(** [CraqServer._set]: once the version is settled, every replica but
    the last records the write as dirty, forwards it and promotes it to
    clean; the last one writes it clean. *)
Definition _set (self : CraqServer) (req : KVSetRequest) (w : W) : outcome :=
  let self := with_lock self (set_key req) in
  match stamp_version self req with
  | Raise e => (self, w, Raise e)
  | Ret req =>
      match next self with
      | Some _ =>
          let self :=
            dirty_insert self (set_key req) (version req) (set_val req) in
          let '(w', r) := send (set_json req) w in
          match r with
          | Raise e => (self, w', Raise e)
          | Ret _ =>
              let self :=
                clean_insert self (set_key req) (version req) (set_val req) in
              match dirty_delete self (set_key req) (version req) with
              | Raise e => (self, w', Raise e)
              | Ret self => (self, w', Ret (status_msg "OK"))
              end
          end
      | None =>
          let self :=
            clean_insert self (set_key req) (version req) (set_val req) in
          (self, w, Ret (status_msg "OK"))
      end
  end.

(** [CraqServer._process_req] *)
Definition _process_req (self : CraqServer) (msg : JsonMessage) (w : W)
  : outcome :=
  if decide (j_type msg = Some "GET") then
    match mkKVGetRequest msg with
    | Ret req => _get self req w
    | Raise e => (self, w, Raise e)
    end
  else if decide (j_type msg = Some "SET") then
    match mkKVSetRequest msg with
    | Ret req => _set self req w
    | Raise e => (self, w, Raise e)
    end
  else if decide (j_type msg = Some "QUERY") then
    match mkKVQueryRequest msg with
    | Ret req => _query self req w
    | Raise e => (self, w, Raise e)
    end
  else (self, w, Ret (status_msg "Unexpected type")).

End Handlers.

(** ** The chain *)

Section Chain.

(** Two things the transport decides and the source files do not show:
    what [send] does when asked to reach [None] (a replica with no
    successor), and what the caller of [send] gets when the peer's
    handler raised. *)
Variable unreachable_peer : JsonMessage -> result JsonMessage.
Variable remote_failure : exn -> result JsonMessage.

(** Modelled from the spec: [ConnectionStub.send] of [core.network], "a
    synchronous request/response to a named peer".  The peer is the
    first replica of [rest], the successor of the sender; it runs
    [_process_req] on the message, its own sends going further down the
    chain, and the sender gets its response. *)
Fixpoint stub_send (rest : list CraqServer) (m : JsonMessage)
  : list CraqServer * result JsonMessage :=
  match rest with
  | [] => ([], unreachable_peer m)
  | peer :: rest' =>
      let '(peer', rest'', r) :=
        _process_req (fun m' w => stub_send w m') peer m rest' in
      (peer' :: rest'',
       match r with Ret x => Ret x | Raise e => remote_failure e end)
  end.

(** Modelled from the spec: the server loop of [core.server], which
    hands each inbound message to [_process_req].  A client's message is
    handled by replica [self], followed in the chain by [rest]. *)
Definition serve (self : CraqServer) (rest : list CraqServer)
    (msg : JsonMessage) : CraqServer * list CraqServer * result JsonMessage :=
  _process_req (fun m w => stub_send w m) self msg rest.

(** A client's message sent to the replica at position [i] of the
    chain; the replicas before it are not involved.  No replica at
    that position: nothing happens. *)
Definition client_req (chain : list CraqServer) (i : nat)
    (msg : JsonMessage) : list CraqServer * option (result JsonMessage) :=
  match drop i chain with
  | [] => (chain, None)
  | self :: rest =>
      let '(self', rest', r) := serve self rest msg in
      ((take i chain ++ self' :: rest')%list, Some r)
  end.

(** The chain after a history of client messages, one at a time. *)
Fixpoint run (chain : list CraqServer) (history : list (nat * JsonMessage))
  : list CraqServer :=
  match history with
  | [] => chain
  | (i, msg) :: history' => run (client_req chain i msg).1 history'
  end.

End Chain.

(** [CraqCluster]: the replicas a, b, c, d with the [prev] and [next]
    tables of lines 55 to 66, each created by [create_server]. *)
Definition CraqCluster : list CraqServer :=
  [ new_server "a" (Some "b") None "d";
    new_server "b" (Some "c") (Some "a") "d";
    new_server "c" (Some "d") (Some "b") "d";
    new_server "d" None (Some "c") "d" ].

(** A chain whose links are those of a chain: only the first replica has
    no predecessor, only the last has no successor. *)
Fixpoint linked_from (has_prev : bool) (chain : list CraqServer) : Prop :=
  match chain with
  | [] => True
  | self :: rest =>
      (is_Some (prev self) <-> has_prev = true) /\
      (is_Some (next self) <-> rest <> []) /\
      linked_from true rest
  end.

Definition linked (chain : list CraqServer) : Prop :=
  chain <> [] /\ linked_from false chain.

(** ** What the specification says the head computes *)

(** The clean version of a key, or 0 ([clean_version(key) or 0]). *)
Definition clean_version_or_0 (self : CraqServer) (key : string) : pyver :=
  match store self !! key with
  | Some (Some z, _) => Some z
  | _ => Some 0
  end.

(** [max(dirty_versions(key) ∪ {clean_version(key) or 0})], in the words
    of the specification: the maximum is taken over the key's dirty
    versions together with its clean version. *)
Definition spec_current (self : CraqServer) (key : string) : result pyver :=
  py_max (keys (default ∅ (temp_store self !! key))
          ++ [clean_version_or_0 self key])%list.

(** ** The client *)

(** A Python [float]: an IEEE 754 binary64 number, with the operations
    of the Standard Library's specification of that format. *)
Abbreviation pyfloat := spec_float.

Definition float_prec : Z := 53.
Definition float_emax : Z := 1024.

Definition fmul (x y : pyfloat) : pyfloat := SFmul float_prec float_emax x y.
Definition fadd (x y : pyfloat) : pyfloat := SFadd float_prec float_emax x y.
Definition flt (x y : pyfloat) : bool := SFltb x y.

(** The literals [0.0], [0.3] and [0.7], as the doubles Python reads
    them: 0.3 is 5404319552844595 * 2^-54 and 0.7 is
    6305039478318694 * 2^-53. *)
Definition f0_0 : pyfloat := S754_zero false.
Definition f0_3 : pyfloat := S754_finite false 5404319552844595 (-54).
Definition f0_7 : pyfloat := S754_finite false 6305039478318694 (-53).

Definition is_nan (x : pyfloat) : bool :=
  match x with S754_nan => true | _ => false end.

(** A [TcpClient]: the connection opened to the replica [conn_info], the
    [conn_index]-th the client created (connections are distinct objects). *)
Record TcpClient : Type := mkConn {
  conn_index : nat;
  conn_info : string
}.

#[global] Instance TcpClient_eq_dec : EqDecision TcpClient.
Proof. solve_decision. Defined.

(** A dict from connections to floats, in insertion order. *)
Abbreviation times := (list (TcpClient * pyfloat)).

(** [d.get(k)] *)
Fixpoint dict_get (d : times) (k : TcpClient) : option pyfloat :=
  match d with
  | [] => None
  | (k', v) :: t => if decide (k' = k) then Some v else dict_get t k
  end.

(** [d[k] = v]: in place when the key is there, at the end otherwise. *)
Fixpoint dict_set (d : times) (k : TcpClient) (v : pyfloat) : times :=
  match d with
  | [] => [(k, v)]
  | (k', v') :: t =>
      if decide (k' = k) then (k, v) :: t else (k', v') :: dict_set t k v
  end.

Record CraqClient : Type := mkClient {
  conns : list TcpClient;
  response_times : times
}.

(** Lines 17 to 20 of [CraqClient.__init__]: one connection per
    replica, in the order of [infos]. *)
Definition connect_all (infos : list string) : list TcpClient :=
  imap (fun i info => mkConn i info) infos.

(** [CraqClient.__init__]: every response time starts at 0.0. *)
Definition new_client (infos : list string) : CraqClient :=
  let conns := connect_all infos in
  mkClient conns ((fun conn => (conn, f0_0)) <$> conns).

(** [min(d, key=d.get)] from a first candidate on: a later key replaces
    the candidate when its value is lower, [<] being the comparison of
    floats. *)
Fixpoint min_from (best : TcpClient) (best_val : pyfloat) (d : times)
  : TcpClient :=
  match d with
  | [] => best
  | (k, v) :: t =>
      if flt v best_val then min_from k v t else min_from best best_val t
  end.

(** [CraqClient._get_least_loaded_server] *)
Definition _get_least_loaded_server (self : CraqClient) : result TcpClient :=
  match response_times self with
  | [] => Raise ValueError
  | (k, v) :: t => Ret (min_from k v t)
  end.

(** [CraqClient.get].  [send server msg] is [server.send(msg)], which may
    yield [None], and [elapsed_time] is what the two readings of the
    clock around it give. *)
Definition get (send : TcpClient -> JsonMessage -> option JsonMessage)
    (elapsed_time : pyfloat) (self : CraqClient) (key : string)
  : CraqClient * result (bool * option string) :=
  match _get_least_loaded_server self with
  | Raise e => (self, Raise e)
  | Ret server =>
      match send server (get_msg key) with
      | None => (self, Raise AssertionError)
      | Some response =>
          match dict_get (response_times self) server with
          | None => (self, Raise KeyError)
          | Some previous =>
              let self :=
                mkClient (conns self)
                  (dict_set (response_times self) server
                     (fadd (fmul elapsed_time f0_3) (fmul previous f0_7))) in
              match j_status response with
              | None => (self, Raise KeyError)
              | Some status =>
                  if decide (status = "OK") then
                    match j_val response with
                    | Some val => (self, Ret (true, Some val))
                    | None => (self, Raise KeyError)
                    end
                  else (self, Ret (false, None))
              end
          end
      end
  end.

(** [CraqClient.set] *)
Definition set (send : TcpClient -> JsonMessage -> option JsonMessage)
    (self : CraqClient) (key val : string) : result bool :=
  match conns self with
  | [] => Raise IndexError
  | head :: _ =>
      match send head (set_msg key val) with
      | None => Raise AssertionError
      | Some response =>
          match j_status response with
          | None => Raise KeyError
          | Some status => Ret (bool_decide (status = "OK"))
          end
      end
  end.

(** ** Predicates on replicas and chains *)

(** Every version the replica holds for the key is an integer. *)
Definition int_versions (self : CraqServer) (key : string) : Prop :=
  (forall d v, temp_store self !! key = Some d -> is_Some (d !! v) -> is_Some v) /\
  (forall cv val, store self !! key = Some (cv, val) -> is_Some cv).

(** The links of the replicas stay as they are, and so does the dirty
    map of a replica without successor. *)
Definition keeps_shape (before after : list CraqServer) : Prop :=
  Forall2 (fun s s' => next s' = next s /\ prev s' = prev s /\
                       (next s = None -> temp_store s' = temp_store s))
          before after.

(** [a < b] on versions, as a proposition: false when one is [None]. *)
Definition ver_lt (a b : pyver) : Prop :=
  match a, b with
  | Some x, Some y => x < y
  | _, _ => False
  end.

(** For every key that has a clean entry, every version in the key's
    dirty map is strictly greater than the clean version. *)
Definition dirty_above_clean (self : CraqServer) : Prop :=
  forall key cv val d dv,
    store self !! key = Some (cv, val) ->
    temp_store self !! key = Some d ->
    is_Some (d !! dv) ->
    ver_lt cv dv.

(** The replica holds (ver, v) clean for the key and no longer holds
    [ver] dirty. *)
Definition committed (key : string) (ver : pyver) (v : string)
    (s : CraqServer) : Prop :=
  store s !! key = Some (ver, v) /\
  forall d, temp_store s !! key = Some d -> d !! ver = None.

(** No replica without successor holds a dirty version of the key. *)
Definition no_tail_dirty (key : string) (chain : list CraqServer) : Prop :=
  Forall (fun s => next s = None -> dirty_versions s key = None) chain.

(** ** Stubs, requests and states used as examples *)

(** A stub that records what it is asked to send and answers with the
    committed version 2. *)
Definition recording_stub (m : JsonMessage) (log : list JsonMessage)
  : list JsonMessage * result JsonMessage :=
  (m :: log, Ret (ver_msg (Some 2))).

(** A replica that holds version 2 of key "k" dirty and version 1 clean. *)
Definition dirty_replica : CraqServer :=
  mkServer "b" (Some "c") (Some "a") "d"
           {[ "k" := {[ Some 2 := "new" ]} ]} {[ "k" := (Some 1, "old") ]} ∅.

(** A stub whose transport fails, and one whose peer answers OK. *)
Definition failing_stub (m : JsonMessage) (log : list JsonMessage)
  : list JsonMessage * result JsonMessage :=
  (m :: log, Raise TransportError).

Definition ok_stub (m : JsonMessage) (log : list JsonMessage)
  : list JsonMessage * result JsonMessage :=
  (m :: log, Ret (status_msg "OK")).

(** The request of a forwarded write of "v" to "k" at version 1. *)
Definition forwarded_write : KVSetRequest :=
  {| set_key := "k"; set_val := "v";
     set_json := set_version (set_msg "k" "v") (Some 1) |}.

(** A client's write of [val] to "k", as the head receives it. *)
Definition client_write (val : string) : KVSetRequest :=
  {| set_key := "k"; set_val := val; set_json := set_msg "k" val |}.

(** The head after a write whose forward failed: version 1 is dirty and
    nothing is clean. *)
Definition stale_head : CraqServer :=
  (_set failing_stub (new_server "a" (Some "b") None "d")
        (client_write "a") []).1.1.

(** That head after a second write, which went through: version 1 is
    left dirty, version 2 is clean. *)
Definition orphan_head : CraqServer :=
  (_set ok_stub stale_head (client_write "b") []).1.1.

(** The cluster in which the first write of "k" failed on its way out of
    the head: the head holds it dirty, no other replica has heard of it. *)
Definition stale_cluster : list CraqServer :=
  [ stale_head;
    new_server "b" (Some "c") (Some "a") "d";
    new_server "c" (Some "d") (Some "b") "d";
    new_server "d" None (Some "c") "d" ].

(** The cluster after one write of "0" to "k". *)
Definition written_cluster : list CraqServer :=
  (client_req (fun _ => Raise TransportError) (fun _ => Raise TransportError)
              CraqCluster 0 (set_msg "k" "0")).1.

(** A client of the cluster whose estimates are 0.5 for "a", 0.0 for "b"
    and "c", and 0.25 for "d". *)
Definition busy_client : CraqClient :=
  let conns := connect_all ["a"; "b"; "c"; "d"] in
  mkClient conns
    [ (mkConn 0 "a", S754_finite false 4503599627370496 (-53));
      (mkConn 1 "b", f0_0);
      (mkConn 2 "c", f0_0);
      (mkConn 3 "d", S754_finite false 4503599627370496 (-54)) ].

(** Every replica answers OK with "0". *)
Definition answering (conn : TcpClient) (msg : JsonMessage)
  : option JsonMessage :=
  Some (ok_val_msg "0").

(** ** Further predicates and stubs *)

(** The message is not a write of the key: it is not a SET, or it is
    about another key. *)
Definition not_write (key : string) (msg : JsonMessage) : Prop :=
  j_type msg <> Some "SET" \/ j_key msg <> Some key.

(** Two states of a replica hold the same clean entry and the same dirty
    map for the key. *)
Definition same_entries (key : string) (s s' : CraqServer) : Prop :=
  store s' !! key = store s !! key /\
  temp_store s' !! key = temp_store s !! key.

(** Every version the replica holds, for any key, is an integer. *)
Definition all_int (self : CraqServer) : Prop :=
  forall key, int_versions self key.

(** The replica holds no dirty version of the key, and its clean version
    of the key is [n], none standing for 0. *)
Definition at_version (key : string) (n : Z) (s : CraqServer) : Prop :=
  dirty_versions s key = None /\
  match store s !! key with
  | Some (ver, _) => ver = Some n
  | None => n = 0
  end.

(** The history of a client that writes the values to the key, one
    after the other, each write sent to the head. *)
Definition writes (key : string) (vals : list string)
  : list (nat * JsonMessage) :=
  (fun val => (0%nat, set_msg key val)) <$> vals.

(** A stub that records what it is asked to send and answers as
    [answer] says. *)
Definition logging_stub (answer : JsonMessage -> result JsonMessage)
    (m : JsonMessage) (log : list JsonMessage)
  : list JsonMessage * result JsonMessage :=
  (m :: log, answer m).

(** Modelled from the spec: [TcpClient.send] of [core.network], "a
    client-side synchronous send".  The connection of index [i] reaches
    the replica at position [i] of the chain, which handles the message;
    the client gets the response, and [None] when there is none. *)
Definition via_cluster
    (unreachable_peer : JsonMessage -> result JsonMessage)
    (remote_failure : exn -> result JsonMessage)
    (chain : list CraqServer) (conn : TcpClient) (msg : JsonMessage)
  : option JsonMessage :=
  match (client_req unreachable_peer remote_failure chain
                    (conn_index conn) msg).2 with
  | Some (Ret response) => Some response
  | _ => None
  end.


(** A chain between two requests, when no forward has ever failed: the
    links are in place, no replica holds a dirty version of any key, and
    the head holds integer versions only. *)
Definition quiescent (chain : list CraqServer) : Prop :=
  linked chain /\
  Forall (fun s => forall key, dirty_versions s key = None) chain /\
  (forall hd, head chain = Some hd -> all_int hd).

(** What a client does through [CraqClient]: [set], which goes to the
    head, and [get], which goes to the replica the client picks. *)
Inductive client_op : Type :=
  | Write (key val : string)
  | Read (replica : nat) (key : string).


(** A map from keys to a version and a value, and what a history of
    operations makes of it: a write gives its key the next version, a
    read changes nothing. *)
Fixpoint replay (model : gmap string (Z * string)) (ops : list client_op)
  : gmap string (Z * string) :=
  match ops with
  | [] => model
  | Write key val :: ops' =>
      replay (<[key := (default 0 (fst <$> model !! key) + 1, val)]> model) ops'
  | Read _ _ :: ops' => replay model ops'
  end.


(** ** States and stubs of the failure cases *)

(** A stub whose peer answers with a status that is not OK. *)
Definition error_stub (m : JsonMessage) (log : list JsonMessage)
  : list JsonMessage * result JsonMessage :=
  (m :: log, Ret (status_msg "error")).

(** [orphan_head] after a third write, of "c", whose forward failed. *)
Definition reissued_head : CraqServer :=
  (_set failing_stub orphan_head (client_write "c") []).1.1.

(** The head after a write that went through and a write whose forward
    failed: version 1 is clean, version 2 is dirty. *)
Definition lagging_head : CraqServer :=
  (_set failing_stub
        (_set ok_stub (new_server "a" (Some "b") None "d")
              (client_write "a") []).1.1
        (client_write "b") []).1.1.

(** A replica in the middle of the chain that holds version 5 of "k"
    clean. *)
Definition settled_replica : CraqServer :=
  mkServer "b" (Some "c") (Some "a") "d" ∅ {[ "k" := (Some 5, "old") ]} ∅.

(** ** What a write needs to find on a replica *)

(** The SET a replica goes on to record: the request of a message of
    type SET that passes the asserts of [KVSetRequest], under the
    version lines 140 to 147 settle; [None] for any other message, and
    when the stamping raises. *)
Definition served_set (self : CraqServer) (msg : JsonMessage)
  : option KVSetRequest :=
  if decide (j_type msg = Some "SET") then
    match mkKVSetRequest msg with
    | Ret req =>
        match stamp_version self req with
        | Ret req' => Some req'
        | Raise _ => None
        end
    | Raise _ => None
    end
  else None.

(** What comes back from the forward of line 153; [None] on a replica
    without successor, which forwards nothing. *)
Definition forward_outcome {W : Type}
    (send : JsonMessage -> W -> W * result JsonMessage)
    (self : CraqServer) (req : KVSetRequest) (w : W)
  : option (result JsonMessage) :=
  match next self with
  | Some _ => Some (send (set_json req) w).2
  | None => None
  end.

(** The replica has room for a write of [key] under [ver]: when the
    forward is answered, every other dirty version of the key is greater
    than [ver], which becomes the clean version; when the forward fails,
    [ver], which stays dirty, is greater than the clean version of the
    key; on a replica without successor, which deletes nothing, every
    dirty version of the key is greater than [ver]. *)
Definition room_for (self : CraqServer) (key : string) (ver : pyver)
    (forward : option (result JsonMessage)) : Prop :=
  let d := default ∅ (temp_store self !! key) in
  match forward with
  | Some (Ret _) =>
      forall dv, dv <> ver -> is_Some (d !! dv) -> ver_lt ver dv
  | Some (Raise _) =>
      forall cv val, store self !! key = Some (cv, val) -> ver_lt cv ver
  | None =>
      forall dv, is_Some (d !! dv) -> ver_lt ver dv
  end.

(** ** Facts about [max] and the stores *)

Lemma max_from_spec (l : list pyver) : forall (a : pyver) (m : Z),
  max_from a l = Ret (Some m) <->
  (Some m ∈ a :: l) /\ (forall v, v ∈ a :: l -> exists z, v = Some z /\ z <= m).
Proof.
  induction l as [|x t IH]; intros a m; simpl.
  - split.
    + intros [= ->]. split; [left|].
      intros v Hv. apply list_elem_of_singleton in Hv as ->.
      exists m. split; [done|lia].
    + intros [Hin _]. apply list_elem_of_singleton in Hin. congruence.
  - destruct a as [a|], x as [x|]; simpl;
      try (split; [discriminate|]; intros [_ Hall];
           destruct (Hall None) as (z & Hz & _); [set_solver|discriminate]).
    rewrite IH.
    assert (Hbound : forall (P : pyver -> Prop) (u b : Z),
      (forall v, P v -> exists z, v = Some z /\ z <= b) -> P (Some u) -> u <= b).
    { intros P u b HP Hu. destruct (HP _ Hu) as (z & [= <-] & Hz). done. }
    destruct (Z.ltb_spec a x) as [Hlt|Hge].
    + split; intros [Hin Hall]; split.
      * set_solver.
      * intros v Hv. rewrite !elem_of_cons in Hv.
        destruct Hv as [->|[->|Hv]]; [|apply Hall; set_solver..].
        exists a. split; [done|].
        pose proof (Hbound _ x m Hall ltac:(left)). lia.
      * rewrite !elem_of_cons in Hin. destruct Hin as [[= Hm]|[Hin|Hin]];
          [|set_solver..].
        pose proof (Hbound _ x m Hall ltac:(set_solver)). lia.
      * intros v Hv. apply Hall. set_solver.
    + split; intros [Hin Hall]; split.
      * set_solver.
      * intros v Hv. rewrite !elem_of_cons in Hv.
        destruct Hv as [->|[->|Hv]]; [apply Hall; set_solver| |apply Hall; set_solver].
        exists x. split; [done|].
        pose proof (Hbound _ a m Hall ltac:(left)). lia.
      * rewrite !elem_of_cons in Hin. destruct Hin as [Hin|[[= Hm]|Hin]];
          [set_solver| |set_solver].
        pose proof (Hbound _ a m Hall ltac:(set_solver)).
        assert (a = m) as -> by lia. left.
      * intros v Hv. apply Hall. set_solver.
Qed.

(** [max] returns an integer exactly when every item is an integer, and
    then it is the greatest of them (whatever the order of the items). *)
Lemma py_max_spec (l : list pyver) (m : Z) :
  py_max l = Ret (Some m) <->
  (Some m ∈ l) /\ (forall v, v ∈ l -> exists z, v = Some z /\ z <= m).
Proof.
  destruct l as [|a l]; simpl.
  - split; [discriminate|]. intros [Hin _]. inversion Hin.
  - apply max_from_spec.
Qed.

Lemma elem_of_keys (d : gmap pyver string) (v : pyver) :
  v ∈ keys d <-> is_Some (d !! v).
Proof.
  unfold keys. rewrite list_elem_of_fmap. split.
  - intros ([k x] & -> & Hin). apply elem_of_map_to_list in Hin. eauto.
  - intros [x Hx]. exists (v, x). split; [done|]. now apply elem_of_map_to_list.
Qed.

Lemma keys_nil (d : gmap pyver string) : keys d = [] <-> d = ∅.
Proof.
  unfold keys. split.
  - intros H. apply fmap_nil_inv in H. now apply map_to_list_empty_iff.
  - intros ->. now rewrite map_to_list_empty.
Qed.

(** ** The read handler *)

Lemma with_lock_stores (self : CraqServer) (key : string) :
  store (with_lock self key) = store self /\
  temp_store (with_lock self key) = temp_store self /\
  next (with_lock self key) = next self /\
  prev (with_lock self key) = prev self.
Proof. done. Qed.

Lemma dirty_versions_Some (self : CraqServer) (key : string)
    (d : gmap pyver string) :
  dirty_versions self key = Some d <-> temp_store self !! key = Some d /\ d <> ∅.
Proof.
  unfold dirty_versions. destruct (temp_store self !! key) as [d'|];
    [case_decide|]; naive_solver.
Qed.

Lemma dirty_versions_None (self : CraqServer) (key : string) :
  dirty_versions self key = None <->
  temp_store self !! key = None \/ temp_store self !! key = Some ∅.
Proof.
  unfold dirty_versions. destruct (temp_store self !! key) as [d'|];
    [case_decide|]; naive_solver.
Qed.

(** C1. A GET for a key whose dirty map on this replica is not empty
    sends [QUERY{key}] to the next replica; with [v*] the ["ver"] field
    of the response, it answers OK with [dirty[key][v*]] when [v*] is a
    key of the dirty map, otherwise OK with the clean value when the key
    has a clean entry, otherwise "Key not found". *)
Theorem get_dirty_path {W : Type}
    (send : JsonMessage -> W -> W * result JsonMessage)
    (self : CraqServer) (req : KVGetRequest) (w : W)
    (d : gmap pyver string) (response : JsonMessage) :
  temp_store self !! get_key req = Some d ->
  d <> ∅ ->
  (send (query_msg (get_key req)) w).2 = Ret response ->
  (_get send self req w).1.2 = (send (query_msg (get_key req)) w).1 /\
  (_get send self req w).2 =
    Ret (match d !! j_ver response with
         | Some val => ok_val_msg val
         | None =>
             match store self !! get_key req with
             | Some (_, val) => ok_val_msg val
             | None => status_msg "Key not found"
             end
         end).
Proof.
  intros Hd Hne Hsend. unfold _get.
  assert (dirty_versions (with_lock self (get_key req)) (get_key req) = Some d)
    as -> by (apply dirty_versions_Some; done).
  destruct (send (query_msg (get_key req)) w) as [w' r]. simpl in *. subst r.
  destruct (d !! j_ver response) as [val|]; [done|].
  destruct (store self !! get_key req) as [[cv val]|]; done.
Qed.

Lemma get_dirty_path_witness :
  (_get recording_stub dirty_replica
        {| get_key := "k"; get_json := get_msg "k" |} []).1.2 = [query_msg "k"] /\
  (_get recording_stub dirty_replica
        {| get_key := "k"; get_json := get_msg "k" |} []).2 = Ret (ok_val_msg "new").
Proof.
  pose proof (get_dirty_path recording_stub dirty_replica
                {| get_key := "k"; get_json := get_msg "k" |} []
                {[ Some 2 := "new" ]} (ver_msg (Some 2))
                eq_refl (map_non_empty_singleton (Some 2) "new") eq_refl) as H.
  vm_compute in H. vm_compute. exact H.
Defined.

(** ** The write handler *)

(** The lock table plays no part in the version the head assigns. *)
Lemma stamp_version_with_lock (self : CraqServer) (req : KVSetRequest) :
  stamp_version (with_lock self (set_key req)) req = stamp_version self req.
Proof. done. Qed.

(** Stamping changes the ["ver"] field at most. *)
Lemma stamp_version_fields (self : CraqServer) (req req' : KVSetRequest) :
  stamp_version self req = Ret req' ->
  set_key req' = set_key req /\ set_val req' = set_val req /\
  set_json req' = set_version (set_json req) (version req').
Proof.
  unfold stamp_version. destruct (prev self).
  - intros [= <-]. repeat split. unfold set_version, version.
    destruct (set_json req); done.
  - destruct (current_version self (set_key req)) as [cv|]; [|discriminate].
    simpl. destruct (py_succ cv) as [ver|]; [|discriminate].
    intros [= <-]. done.
Qed.

(** The entry the write handler removes is the one it has just written. *)
Lemma dirty_delete_insert (self : CraqServer) (key : string) (ver cv : pyver)
    (val cval : string) :
  dirty_delete (clean_insert (dirty_insert self key ver val) key cv cval) key ver =
  Ret (clean_insert
         (set_temp_store self
            (<[key := delete ver (default ∅ (temp_store self !! key))]>
               (temp_store self)))
         key cv cval).
Proof.
  unfold dirty_delete, clean_insert, dirty_insert, set_store, set_temp_store.
  simpl. rewrite lookup_insert_eq. rewrite lookup_insert_eq.
  rewrite insert_insert_eq. rewrite delete_insert_eq. done.
Qed.

(** What [_set] does on a replica that has a successor, in terms of the
    outcome of the forward. *)
Lemma _set_forward {W : Type}
    (send : JsonMessage -> W -> W * result JsonMessage)
    (self : CraqServer) (req req' : KVSetRequest) (w : W) (n : string) :
  next self = Some n ->
  stamp_version self req = Ret req' ->
  _set send self req w =
    let key := set_key req in
    let locked := with_lock self key in
    match send (set_json req') w with
    | (w', Raise e) =>
        (dirty_insert locked key (version req') (set_val req), w', Raise e)
    | (w', Ret _) =>
        (clean_insert
           (set_temp_store locked
              (<[key := delete (version req') (default ∅ (temp_store self !! key))]>
                 (temp_store self)))
           key (version req') (set_val req),
         w', Ret (status_msg "OK"))
    end.
Proof.
  intros Hn Hst. unfold _set. rewrite stamp_version_with_lock, Hst.
  destruct (stamp_version_fields _ _ _ Hst) as (-> & -> & _).
  simpl. rewrite Hn.
  destruct (send (set_json req') w) as [w' [resp|e]]; [|done].
  rewrite dirty_delete_insert. done.
Qed.

(** C2, as the code has it.  On a replica that has a successor, a SET
    commits (the clean entry becomes (version, value) and
    [dirty[key][version]] is deleted, the answer being OK) whenever the
    forward to [next] returns a response, whatever the status of that
    response, which is not looked at; when the forward fails, that is
    when the send raises, the handler fails with the same error, the
    clean map is as it was and [dirty[key][version]] stays. *)
Theorem set_commits_on_forward_return {W : Type}
    (send : JsonMessage -> W -> W * result JsonMessage)
    (self : CraqServer) (req req' : KVSetRequest) (w : W) (n : string) :
  next self = Some n ->
  stamp_version self req = Ret req' ->
  let key := set_key req in
  let ver := version req' in
  let self' := (_set send self req w).1.1 in
  (_set send self req w).1.2 = (send (set_json req') w).1 /\
  match (send (set_json req') w).2 with
  | Ret _ =>
      (_set send self req w).2 = Ret (status_msg "OK") /\
      store self' !! key = Some (ver, set_val req) /\
      temp_store self' !! key ≫= (.!! ver) = None
  | Raise e =>
      (_set send self req w).2 = Raise e /\
      store self' = store self /\
      temp_store self' !! key ≫= (.!! ver) = Some (set_val req)
  end.
Proof.
  intros Hn Hst key ver self'. subst self'.
  rewrite (_set_forward send self req req' w n Hn Hst). simpl.
  destruct (send (set_json req') w) as [w' [resp|e]]; simpl.
  - split; [done|]. split; [done|]. split.
    + apply lookup_insert_eq.
    + rewrite lookup_insert_eq. simpl. apply lookup_delete_eq.
  - split; [done|]. split; [done|]. split; [done|].
    rewrite lookup_insert_eq. simpl. apply lookup_insert_eq.
Qed.

Lemma set_commits_on_forward_return_witness :
  let out :=
    _set failing_stub (new_server "b" (Some "c") (Some "a") "d")
         forwarded_write [] in
  out.1.2 = [set_version (set_msg "k" "v") (Some 1)] /\
  out.2 = Raise TransportError /\
  store out.1.1 = ∅ /\
  temp_store out.1.1 !! "k" ≫= (.!! Some 1) = Some "v".
Proof.
  pose proof (set_commits_on_forward_return failing_stub
                (new_server "b" (Some "c") (Some "a") "d")
                forwarded_write forwarded_write [] "c" eq_refl eq_refl) as H.
  vm_compute in H. vm_compute. exact H.
Defined.

(** C2 as stated fails: the forward comes back with the status "error",
    which is no successful response, and the replica commits the write
    all the same and answers OK. *)
Lemma set_commits_on_error_response :
  let out :=
    _set error_stub (new_server "b" (Some "c") (Some "a") "d")
         forwarded_write [] in
  (error_stub (set_json forwarded_write) []).2 = Ret (status_msg "error") /\
  out.2 = Ret (status_msg "OK") /\
  store out.1.1 !! "k" = Some (Some 1, "v") /\
  temp_store out.1.1 !! "k" ≫= (.!! Some 1) = None.
Proof. vm_compute. done. Qed.

(** The same write when the forward returns: committed, and OK. *)
Example set_commits_when_forward_returns :
  let out :=
    _set ok_stub (new_server "b" (Some "c") (Some "a") "d")
         forwarded_write [] in
  out.2 = Ret (status_msg "OK") /\
  store out.1.1 !! "k" = Some (Some 1, "v") /\
  temp_store out.1.1 !! "k" = Some ∅.
Proof. vm_compute. done. Qed.

(** ** The version the head assigns *)

(** [max] over integers returns one of them. *)
Lemma py_max_ints (l : list pyver) :
  l <> [] ->
  (forall v, v ∈ l -> is_Some v) ->
  exists c, py_max l = Ret (Some c).
Proof.
  intros Hne Hall. destruct l as [|a l]; [done|]. clear Hne. simpl.
  revert a Hall. induction l as [|x t IH]; intros a Hall.
  - destruct (Hall a) as [c ->]; [left|]. exists c. done.
  - destruct (Hall a) as [ca ->]; [left|].
    destruct (Hall x) as [cx ->]; [right; left|]. simpl.
    apply IH. intros v Hv. apply elem_of_cons in Hv as [->|Hv].
    + destruct (ca <? cx); eauto.
    + apply Hall. right. now right.
Qed.

(** With integer versions, [max] over a dirty map that is not empty
    returns its greatest key. *)
Lemma py_max_keys_ints (d : gmap pyver string) :
  d <> ∅ ->
  (forall v, is_Some (d !! v) -> is_Some v) ->
  exists c, py_max (keys d) = Ret (Some c).
Proof.
  intros Hne Hint. apply py_max_ints.
  - by rewrite keys_nil.
  - intros v Hv. apply Hint. now apply elem_of_keys.
Qed.

(** With [None] among the items, [max(...) + 1] raises [TypeError]:
    either a comparison does, or the sum. *)
Lemma max_from_None (l : list pyver) : forall a : pyver,
  None ∈ a :: l -> l <> [] -> max_from a l = Raise TypeError.
Proof.
  induction l as [|x t IH]; intros a Hin Hne; [done|]. simpl.
  destruct a as [a|], x as [x|]; try done. simpl.
  assert (Ht : None ∈ t) by set_solver.
  apply IH; [|by intros ->; inversion Ht].
  destruct (a <? x); set_solver.
Qed.

Lemma py_max_succ_None (l : list pyver) :
  None ∈ l -> (cv ← py_max l; py_succ cv) = Raise TypeError.
Proof.
  intros Hin. destruct l as [|a t]; [by inversion Hin|]. simpl.
  destruct t as [|x t'].
  - apply list_elem_of_singleton in Hin as <-. done.
  - by rewrite max_from_None.
Qed.

(** The order in which the dict hands its keys to [max] plays no part
    in the version the head computes. *)
Lemma py_max_succ_perm (l l' : list pyver) :
  l ≡ₚ l' -> (cv ← py_max l; py_succ cv) = (cv ← py_max l'; py_succ cv).
Proof.
  intros Hperm. destruct (decide (None ∈ l)) as [Hin|Hnin].
  - rewrite (py_max_succ_None l Hin).
    rewrite (py_max_succ_None l'); [done|by rewrite <- Hperm].
  - destruct l as [|a t].
    { apply Permutation_nil_l in Hperm as ->. done. }
    assert (Hints : forall v, v ∈ a :: t -> is_Some v).
    { intros [z|] Hv; [eauto|done]. }
    destruct (py_max_ints (a :: t) ltac:(done) Hints) as [m Hm].
    destruct (py_max_ints l') as [m' Hm'].
    { intros ->. by apply Permutation_nil_r in Hperm. }
    { intros v Hv. apply Hints. by rewrite Hperm. }
    rewrite Hm, Hm'. apply py_max_spec in Hm as [Hin Hmax].
    apply py_max_spec in Hm' as [Hin' Hmax'].
    rewrite Hperm in Hin. rewrite <- Hperm in Hin'.
    destruct (Hmax _ Hin') as (z & [= <-] & Hle).
    destruct (Hmax' _ Hin) as (z' & [= <-] & Hle').
    assert (m = m') as -> by lia. done.
Qed.

Lemma current_version_ints (self : CraqServer) (key : string) :
  int_versions self key -> exists c, current_version self key = Ret (Some c).
Proof.
  intros [Hd Hc]. unfold current_version.
  destruct (dirty_versions self key) as [d|] eqn:Hdv.
  - apply dirty_versions_Some in Hdv as [Hts Hne].
    apply py_max_keys_ints; [done|]. intros v. apply (Hd d v Hts).
  - destruct (store self !! key) as [[cv val]|] eqn:Hst.
    + destruct (Hc cv val eq_refl) as [c ->]. eauto.
    + eauto.
Qed.

(** [current_version], case by case. *)
Lemma current_version_spec (self : CraqServer) (key : string) (c : Z) :
  current_version self key = Ret (Some c) <->
  match dirty_versions self key with
  | Some d =>
      is_Some (d !! Some c) /\
      forall v, is_Some (d !! v) -> exists z, v = Some z /\ z <= c
  | None =>
      match store self !! key with
      | Some (cv, _) => cv = Some c
      | None => c = 0
      end
  end.
Proof.
  unfold current_version. destruct (dirty_versions self key) as [d|].
  - rewrite py_max_spec. rewrite elem_of_keys.
    split; intros [H1 H2]; (split; [done|]); intros v Hv; apply H2;
      now apply elem_of_keys.
  - destruct (store self !! key) as [[cv val]|]; naive_solver.
Qed.

(** The maximum the specification describes, case by case. *)
Lemma spec_current_spec (self : CraqServer) (key : string) (m : Z) :
  spec_current self key = Ret (Some m) <->
  (is_Some (default ∅ (temp_store self !! key) !! Some m) \/
   clean_version_or_0 self key = Some m) /\
  (forall v, is_Some (default ∅ (temp_store self !! key) !! v) ->
             exists z, v = Some z /\ z <= m) /\
  (exists z, clean_version_or_0 self key = Some z /\ z <= m).
Proof.
  unfold spec_current. rewrite py_max_spec.
  setoid_rewrite elem_of_app. setoid_rewrite list_elem_of_singleton.
  setoid_rewrite elem_of_keys. split.
  - intros [Hin Hall]. split; [naive_solver|]. split; [naive_solver|].
    destruct (Hall (clean_version_or_0 self key)) as (z & Hz & Hle); eauto.
  - intros (Hin & Hd & (z & Hz & Hle)). split; [naive_solver|].
    intros v [Hv| ->]; eauto.
Qed.

Lemma dirty_versions_default (self : CraqServer) (key : string) :
  match dirty_versions self key with
  | Some d => default ∅ (temp_store self !! key) = d
  | None => default ∅ (temp_store self !! key) = ∅
  end.
Proof.
  unfold dirty_versions. destruct (temp_store self !! key) as [d|]; simpl;
    [case_decide|]; done.
Qed.

(** The head's reading of the current version is the specification's
    maximum exactly when the clean version (or 0) does not exceed it. *)
Lemma current_version_vs_spec (self : CraqServer) (key : string) (c : Z) :
  current_version self key = Ret (Some c) ->
  spec_current self key = Ret (Some c) <->
  (forall z, clean_version_or_0 self key = Some z -> z <= c).
Proof.
  intros Hcur. rewrite spec_current_spec. split.
  - intros (_ & _ & (z & Hz & Hle)) z' Hz'. congruence.
  - intros Hle. apply current_version_spec in Hcur.
    pose proof (dirty_versions_default self key) as Hdef.
    destruct (dirty_versions self key) as [d|].
    + rewrite Hdef. destruct Hcur as [Hin Hall]. split; [by left|].
      split; [done|]. unfold clean_version_or_0 in *.
      destruct (store self !! key) as [[[z|] val]|]; eauto.
    + rewrite Hdef. unfold clean_version_or_0 in *.
      destruct (store self !! key) as [[cv val]|]; subst.
      * split; [by right|]. split; [|exists c; split; [done|lia]].
        intros v [x Hx]. by rewrite lookup_empty in Hx.
      * split; [by right|]. split; [|exists 0; split; [done|lia]].
        intros v [x Hx]. by rewrite lookup_empty in Hx.
Qed.

(** What lines 141 to 147 compute.  At the head, when the versions held
    for the key are integers, the request is stamped with [current + 1], where
    [current] is the greatest dirty version of the key when its dirty map
    is not empty, and otherwise its clean version, 0 when it has none.
    That is the maximum over dirty and clean versions together exactly
    when the clean version (or 0) does not exceed [current]. *)
Theorem head_assigns_next_version
    (self : CraqServer) (req : KVSetRequest) :
  prev self = None ->
  int_versions self (set_key req) ->
  exists c : Z,
    stamp_version self req = Ret (with_version req (Some (c + 1))) /\
    match dirty_versions self (set_key req) with
    | Some d =>
        is_Some (d !! Some c) /\ forall z, is_Some (d !! Some z) -> z <= c
    | None => clean_version_or_0 self (set_key req) = Some c
    end /\
    (spec_current self (set_key req) = Ret (Some c) <->
     forall z, clean_version_or_0 self (set_key req) = Some z -> z <= c).
Proof.
  intros Hprev Hint.
  destruct (current_version_ints self (set_key req) Hint) as [c Hc].
  exists c. split; [|split].
  - unfold stamp_version. rewrite Hprev, Hc. done.
  - pose proof Hc as Hc'. apply current_version_spec in Hc'.
    destruct (dirty_versions self (set_key req)) as [d|].
    + destruct Hc' as [Hin Hall]. split; [done|].
      intros z Hz. destruct (Hall _ Hz) as (z' & [= <-] & Hle). done.
    + unfold clean_version_or_0.
      destruct (store self !! set_key req) as [[cv val]|]; by subst.
  - by apply current_version_vs_spec.
Qed.

Lemma orphan_head_stores :
  temp_store orphan_head = {[ "k" := {[ Some 1 := "a" ]} ]} /\
  store orphan_head = {[ "k" := (Some 2, "b") ]}.
Proof. vm_compute. done. Qed.

Lemma orphan_head_int_versions : int_versions orphan_head "k".
Proof.
  destruct orphan_head_stores as [Hts Hst]. unfold int_versions.
  rewrite Hts, Hst. split.
  - intros d v Hd [x Hx]. rewrite lookup_singleton_eq in Hd.
    injection Hd as <-. apply lookup_singleton_Some in Hx as [<- _]. eauto.
  - intros cv val H. rewrite lookup_singleton_eq in H.
    injection H as <- <-. eauto.
Qed.

Lemma head_assigns_next_version_witness :
  exists c : Z,
    stamp_version orphan_head (client_write "c") =
      Ret (with_version (client_write "c") (Some (c + 1))) /\
    match dirty_versions orphan_head "k" with
    | Some d =>
        is_Some (d !! Some c) /\ forall z, is_Some (d !! Some z) -> z <= c
    | None => clean_version_or_0 orphan_head "k" = Some c
    end /\
    (spec_current orphan_head "k" = Ret (Some c) <->
     forall z, clean_version_or_0 orphan_head "k" = Some z -> z <= c).
Proof.
  apply (head_assigns_next_version orphan_head (client_write "c")).
  - reflexivity.
  - exact orphan_head_int_versions.
Defined.

(** On the head that holds an older dirty version below its clean
    version, the maximum over both is 2, which calls for version 3, and
    the head stamps the write with 2. *)
Lemma head_version_counterexample :
  prev orphan_head = None /\
  stamp_version orphan_head (client_write "c") =
    Ret (with_version (client_write "c") (Some 2)) /\
  (cur ← spec_current orphan_head "k"; py_succ cur) = Ret (Some 3).
Proof. vm_compute. done. Qed.

(** C3, on the code.  On [orphan_head], where version 1 of "k" is dirty
    and version 2 is clean, the next write should get version 3, one
    more than the maximum over dirty and clean versions.  Lines 141 to
    147 look at the dirty versions alone and give it 2, the version that
    is already clean.  Two writes that both went through then share
    version 2; and when the forward of the second fails instead, a GET
    at the head, told by the tail that version 2 is committed, answers
    the value of the failed write, "c", where "b" is what the chain
    holds. *)
Theorem head_reissues_clean_version :
  prev orphan_head = None /\
  store orphan_head !! "k" = Some (Some 2, "b") /\
  (cur ← spec_current orphan_head "k"; py_succ cur) = Ret (Some 3) /\
  stamp_version orphan_head (client_write "c") =
    Ret (with_version (client_write "c") (Some 2)) /\
  (_set ok_stub orphan_head (client_write "c") []).2 = Ret (status_msg "OK") /\
  store (_set ok_stub orphan_head (client_write "c") []).1.1 !! "k" =
    Some (Some 2, "c") /\
  store reissued_head !! "k" = Some (Some 2, "b") /\
  (_get recording_stub reissued_head
        {| get_key := "k"; get_json := get_msg "k" |} []).2 =
    Ret (ok_val_msg "c").
Proof. vm_compute. done. Qed.

(** C10. At the head a SET that already carries a ["ver"] field is not
    turned down.  It is handled as the same SET without the field:
    whatever the field holds is overwritten by [current + 1] before
    anything looks at it, and the write then takes its normal course
    under that version.  The message forwarded carries [current + 1];
    when the forward returns, the answer is OK and the clean entry is
    ([current + 1], value); when it raises, the value stays dirty under
    [current + 1]; and a head without successor writes the clean entry
    at once. *)
Theorem head_overwrites_supplied_version {W : Type}
    (send : JsonMessage -> W -> W * result JsonMessage)
    (self : CraqServer) (msg : JsonMessage) (w : W) (supplied : pyver)
    (k v : string) (c : Z) :
  prev self = None ->
  j_type msg = Some "SET" -> j_key msg = Some k -> j_val msg = Some v ->
  current_version self k = Ret (Some c) ->
  let out := _process_req send self (set_version msg supplied) w in
  let stamped := set_version msg (Some (c + 1)) in
  out = _process_req send self (set_version msg None) w /\
  match next self with
  | Some _ =>
      out.1.2 = (send stamped w).1 /\
      match (send stamped w).2 with
      | Ret _ =>
          out.2 = Ret (status_msg "OK") /\
          store out.1.1 !! k = Some (Some (c + 1), v) /\
          temp_store out.1.1 !! k ≫= (.!! Some (c + 1)) = None
      | Raise e =>
          out.2 = Raise e /\
          store out.1.1 = store self /\
          temp_store out.1.1 !! k ≫= (.!! Some (c + 1)) = Some v
      end
  | None =>
      out.1.2 = w /\
      out.2 = Ret (status_msg "OK") /\
      store out.1.1 !! k = Some (Some (c + 1), v) /\
      temp_store out.1.1 = temp_store self
  end.
Proof.
  intros Hprev Htype Hk Hv Hcur. cbn zeta. split.
  - unfold _process_req. simpl. rewrite Htype. simpl.
    unfold mkKVSetRequest. simpl. rewrite Hk, Hv.
    unfold _set. simpl. unfold stamp_version. simpl. rewrite Hprev.
    destruct (current_version _ k) as [cv|]; [|done]. simpl.
    destruct (py_succ cv) as [ver|]; done.
  - unfold _process_req. simpl. rewrite Htype. simpl.
    unfold mkKVSetRequest. simpl. rewrite Hk, Hv.
    set (req := {| set_key := k; set_val := v;
                   set_json := set_version msg supplied |}).
    assert (Hst : stamp_version self req =
                  Ret (with_version req (Some (c + 1)))).
    { unfold stamp_version. simpl. by rewrite Hprev, Hcur. }
    destruct (next self) as [n|] eqn:Hn.
    + rewrite (_set_forward send self req _ w n Hn Hst). simpl.
      change (set_version (set_version msg supplied) (Some (c + 1)))
        with (set_version msg (Some (c + 1))).
      destruct (send (set_version msg (Some (c + 1))) w) as [w' [resp|e]];
        simpl.
      * split; [done|]. split; [done|]. split; [apply lookup_insert_eq|].
        rewrite lookup_insert_eq. simpl. apply lookup_delete_eq.
      * split; [done|]. split; [done|]. split; [done|].
        rewrite lookup_insert_eq. simpl. apply lookup_insert_eq.
    + unfold _set. rewrite stamp_version_with_lock, Hst. simpl. rewrite Hn.
      simpl.
      split; [done|]. split; [done|]. split; [apply lookup_insert_eq|done].
Qed.

Lemma head_overwrites_supplied_version_witness :
  let out :=
    _process_req ok_stub orphan_head
                 (set_version (set_msg "k" "c") (Some 7)) [] in
  out = _process_req ok_stub orphan_head
                     (set_version (set_msg "k" "c") None) [] /\
  out.1.2 = [set_version (set_msg "k" "c") (Some 2)] /\
  out.2 = Ret (status_msg "OK") /\
  store out.1.1 !! "k" = Some (Some 2, "c") /\
  temp_store out.1.1 !! "k" ≫= (.!! Some 2) = None.
Proof.
  pose proof (head_overwrites_supplied_version ok_stub orphan_head
                (set_msg "k" "c") [] (Some 7) "k" "c" 1
                eq_refl eq_refl eq_refl eq_refl eq_refl) as H.
  vm_compute in H. vm_compute. exact H.
Defined.

(** The head forwards version 2, not the 7 the client supplied. *)
Example head_ignores_version_7 :
  (_process_req ok_stub orphan_head
     (set_version (set_msg "k" "c") (Some 7)) []).1.2 =
  [set_version (set_msg "k" "c") (Some 2)].
Proof. vm_compute. done. Qed.

(** ** The version query at the tail *)

(** A replica without successor that has no clean entry for the key
    raises [KeyError] at line 131, and nothing in [_process_req] catches it. *)
Lemma query_without_clean_entry {W : Type}
    (send : JsonMessage -> W -> W * result JsonMessage)
    (self : CraqServer) (key : string) (w : W) :
  next self = None ->
  store self !! key = None ->
  _process_req send self (query_msg key) w =
    (with_lock self key, w, Raise KeyError).
Proof.
  intros Hn Hst. unfold _process_req, _query. simpl. rewrite Hn, Hst. done.
Qed.

(** C5, on the code: a [QUERY] for a key never written, handled by the
    tail "d" of the cluster, leaves [_process_req] by raising [KeyError];
    no response is returned. *)
Theorem tail_query_unwritten_key_raises
    (unreachable_peer : JsonMessage -> result JsonMessage)
    (remote_failure : exn -> result JsonMessage) :
  (client_req unreachable_peer remote_failure CraqCluster 3
     (query_msg "absent")).2 = Some (Raise KeyError).
Proof. vm_compute. done. Qed.

(** What the reader of such a key gets is then up to the transport.
    When the caller of [send] sees the peer's exception, the GET fails
    with it; when it sees a response without ["ver"], the GET answers
    "Key not found" if the replica has no clean entry for the key. *)
Example dirty_read_when_the_failure_is_raised :
  (client_req (fun _ => Raise TransportError) (fun e => Raise e)
              stale_cluster 0 (get_msg "k")).2 = Some (Raise KeyError).
Proof. vm_compute. done. Qed.

Example dirty_read_when_the_failure_is_a_response :
  (client_req (fun _ => Raise TransportError)
              (fun _ => Ret (status_msg "error"))
              stale_cluster 0 (get_msg "k")).2 =
  Some (Ret (status_msg "Key not found")).
Proof. vm_compute. done. Qed.

(** ** Reads leave the stores alone *)

Lemma _get_stores {W : Type}
    (send : JsonMessage -> W -> W * result JsonMessage)
    (self : CraqServer) (req : KVGetRequest) (w : W) :
  (_get send self req w).1.1 = with_lock self (get_key req).
Proof.
  unfold _get. destruct (dirty_versions _ _) as [d|].
  - destruct (send _ w) as [w' [resp|e]]; [|done].
    destruct (d !! j_ver resp); [done|].
    destruct (store _ !! _) as [[cv val]|]; done.
  - destruct (store _ !! _) as [[cv val]|]; done.
Qed.

Lemma _query_stores {W : Type}
    (send : JsonMessage -> W -> W * result JsonMessage)
    (self : CraqServer) (req : KVQueryRequest) (w : W) :
  (_query send self req w).1.1 = with_lock self (query_key req).
Proof.
  unfold _query. simpl. destruct (next self).
  - destruct (send _ w) as [w' r]. done.
  - destruct (store _ !! _) as [[cv val]|]; done.
Qed.

(** A message that is not a SET changes nothing on the replica but its
    lock table, and what it sends on, if anything, is a QUERY. *)
Lemma process_req_not_set {W : Type}
    (send : JsonMessage -> W -> W * result JsonMessage)
    (self : CraqServer) (msg : JsonMessage) (w : W) :
  j_type msg <> Some "SET" ->
  (store (_process_req send self msg w).1.1 = store self /\
   temp_store (_process_req send self msg w).1.1 = temp_store self /\
   next (_process_req send self msg w).1.1 = next self /\
   prev (_process_req send self msg w).1.1 = prev self) /\
  ((_process_req send self msg w).1.2 = w \/
   exists m, j_type m = Some "QUERY" /\
             (_process_req send self msg w).1.2 = (send m w).1).
Proof.
  intros Hty. unfold _process_req.
  destruct (decide (j_type msg = Some "GET")) as [Hg|_].
  - unfold mkKVGetRequest. destruct (j_key msg) as [k|]; [|by auto].
    rewrite _get_stores. split; [done|]. unfold _get. simpl.
    destruct (dirty_versions _ _) as [d|].
    + right. exists (query_msg k). split; [done|].
      destruct (send _ w) as [w' [resp|e]]; [|done].
      destruct (d !! j_ver resp); [done|].
      destruct (store _ !! _) as [[cv val]|]; done.
    + left. destruct (store _ !! _) as [[cv val]|]; done.
  - destruct (decide (j_type msg = Some "SET")) as [Hs|_]; [done|].
    destruct (decide (j_type msg = Some "QUERY")) as [Hq|_]; [|by auto].
    unfold mkKVQueryRequest. destruct (j_key msg) as [k|]; [|by auto].
    rewrite _query_stores. split; [done|]. unfold _query. simpl.
    destruct (next self).
    + right. exists msg. split; [done|]. destruct (send _ w) as [w' r]. done.
    + left. destruct (store _ !! _) as [[cv val]|]; done.
Qed.

Lemma stub_send_not_set
    (unreachable_peer : JsonMessage -> result JsonMessage)
    (remote_failure : exn -> result JsonMessage)
    (rest : list CraqServer) : forall m : JsonMessage,
  j_type m <> Some "SET" ->
  store <$> (stub_send unreachable_peer remote_failure rest m).1 = store <$> rest /\
  temp_store <$> (stub_send unreachable_peer remote_failure rest m).1 =
    temp_store <$> rest.
Proof.
  induction rest as [|peer rest' IH]; intros m Hty; [done|].
  cbn [stub_send].
  pose proof (process_req_not_set
                (fun m' w => stub_send unreachable_peer remote_failure w m')
                peer m rest' Hty) as [(Hs & Ht & _) Hw].
  destruct (_process_req _ peer m rest') as [[peer' rest''] r].
  cbn [fst snd] in *. rewrite !fmap_cons, Hs, Ht. destruct Hw as [->|(m' & Hm' & ->)]; [done|].
  destruct (IH m') as [-> ->]; [congruence|done].
Qed.

Lemma client_req_not_set
    (unreachable_peer : JsonMessage -> result JsonMessage)
    (remote_failure : exn -> result JsonMessage)
    (chain : list CraqServer) (i : nat) (msg : JsonMessage) :
  j_type msg <> Some "SET" ->
  store <$> (client_req unreachable_peer remote_failure chain i msg).1 =
    store <$> chain /\
  temp_store <$> (client_req unreachable_peer remote_failure chain i msg).1 =
    temp_store <$> chain.
Proof.
  intros Hty. unfold client_req, serve.
  destruct (drop i chain) as [|self rest] eqn:Hdrop; [done|].
  pose proof (process_req_not_set
                (fun m w => stub_send unreachable_peer remote_failure w m)
                self msg rest Hty) as [(Hs & Ht & _) Hw].
  destruct (_process_req _ self msg rest) as [[self' rest'] r].
  cbn [fst snd] in *.
  rewrite <- (take_drop i chain) at 2 4. rewrite Hdrop.
  rewrite !fmap_app, !fmap_cons, Hs, Ht.
  destruct Hw as [->|(m & Hm & ->)]; [done|].
  destruct (stub_send_not_set unreachable_peer remote_failure rest m) as [-> ->];
    [congruence|done].
Qed.

(** C9. A message that is not a SET, so a GET or a QUERY, leaves the
    clean map and the dirty map of the replica that handles it as they
    were, and those of every replica of the chain the message travels
    along as well. *)
Theorem reads_leave_stores_unchanged {W : Type}
    (send : JsonMessage -> W -> W * result JsonMessage)
    (self : CraqServer) (w : W)
    (unreachable_peer : JsonMessage -> result JsonMessage)
    (remote_failure : exn -> result JsonMessage)
    (chain : list CraqServer) (i : nat) (msg : JsonMessage) :
  j_type msg <> Some "SET" ->
  (store (_process_req send self msg w).1.1 = store self /\
   temp_store (_process_req send self msg w).1.1 = temp_store self) /\
  (store <$> (client_req unreachable_peer remote_failure chain i msg).1 =
     store <$> chain /\
   temp_store <$> (client_req unreachable_peer remote_failure chain i msg).1 =
     temp_store <$> chain).
Proof.
  intros Hty. split.
  - destruct (process_req_not_set send self msg w Hty) as [(Hs & Ht & _) _].
    done.
  - by apply client_req_not_set.
Qed.

Lemma reads_leave_stores_unchanged_witness :
  (store (_process_req recording_stub dirty_replica (get_msg "k") []).1.1 =
     store dirty_replica /\
   temp_store (_process_req recording_stub dirty_replica (get_msg "k") []).1.1 =
     temp_store dirty_replica) /\
  (store <$> (client_req (fun _ => Raise TransportError)
                (fun _ => Raise TransportError) written_cluster 1
                (get_msg "k")).1 = store <$> written_cluster /\
   temp_store <$> (client_req (fun _ => Raise TransportError)
                (fun _ => Raise TransportError) written_cluster 1
                (get_msg "k")).1 = temp_store <$> written_cluster).
Proof.
  apply (reads_leave_stores_unchanged recording_stub dirty_replica []
           (fun _ => Raise TransportError) (fun _ => Raise TransportError)
           written_cluster 1 (get_msg "k")).
  discriminate.
Defined.

(** A GET does leave a trace on the replica: the lock of the key. *)
Example get_creates_the_lock :
  locks (_process_req recording_stub dirty_replica (get_msg "k") []).1.1 =
  {[ "k" ]}.
Proof. vm_compute. done. Qed.

(** ** The tail *)

(** What [_set] does on a replica without successor. *)
Lemma _set_tail {W : Type}
    (send : JsonMessage -> W -> W * result JsonMessage)
    (self : CraqServer) (req : KVSetRequest) (w : W) :
  next self = None ->
  _set send self req w =
    match stamp_version self req with
    | Ret req' =>
        (clean_insert (with_lock self (set_key req)) (set_key req)
                      (version req') (set_val req),
         w, Ret (status_msg "OK"))
    | Raise e => (with_lock self (set_key req), w, Raise e)
    end.
Proof.
  intros Hn. unfold _set. rewrite stamp_version_with_lock.
  destruct (stamp_version self req) as [req'|e] eqn:Hst; [|done].
  destruct (stamp_version_fields _ _ _ Hst) as (-> & -> & _).
  simpl. rewrite Hn. done.
Qed.

(** No handler touches the links of the replica; a handler sends at most
    one message; and on a replica without successor no handler touches
    the dirty map. *)
Lemma process_req_shape {W : Type}
    (send : JsonMessage -> W -> W * result JsonMessage)
    (self : CraqServer) (msg : JsonMessage) (w : W) :
  let out := _process_req send self msg w in
  next out.1.1 = next self /\
  prev out.1.1 = prev self /\
  (next self = None -> temp_store out.1.1 = temp_store self) /\
  (out.1.2 = w \/ exists m, out.1.2 = (send m w).1).
Proof.
  destruct (decide (j_type msg = Some "SET")) as [Hs|Hns].
  - unfold _process_req. rewrite Hs. simpl.
    destruct (mkKVSetRequest msg) as [req|e]; [|by auto].
    destruct (next self) as [n|] eqn:Hn.
    + destruct (stamp_version self req) as [req'|e] eqn:Hst.
      * rewrite (_set_forward send self req req' w n Hn Hst). simpl.
        destruct (send (set_json req') w) as [w' [resp|e]] eqn:Hsend; simpl;
          (split_and!; [done..|right; exists (set_json req'); by rewrite Hsend]).
      * unfold _set. rewrite stamp_version_with_lock, Hst. simpl. by auto.
    + rewrite (_set_tail send self req w Hn).
      destruct (stamp_version self req); simpl; by auto.
  - destruct (process_req_not_set send self msg w Hns)
      as [(_ & Ht & Hn & Hp) Hw]. simpl. split_and!; [done..|].
    destruct Hw as [?|(m & _ & ?)]; eauto.
Qed.

Lemma keeps_shape_refl (chain : list CraqServer) : keeps_shape chain chain.
Proof. apply Forall2_same_length_lookup_2; [done|]. naive_solver. Qed.

Lemma keeps_shape_trans (c1 c2 c3 : list CraqServer) :
  keeps_shape c1 c2 -> keeps_shape c2 c3 -> keeps_shape c1 c3.
Proof.
  unfold keeps_shape. intros H12. revert c3.
  induction H12 as [|s1 s2 t1 t2 (Hn & Hp & Ht) _ IH]; intros c3 H23.
  - by inversion H23.
  - inversion H23 as [|? s3 ? t3 (Hn' & Hp' & Ht') Hrest]; subst.
    constructor; [|by apply IH].
    repeat split; [congruence..|].
    intros Hnone. rewrite Ht'; [by apply Ht|congruence].
Qed.

Lemma stub_send_keeps_shape
    (unreachable_peer : JsonMessage -> result JsonMessage)
    (remote_failure : exn -> result JsonMessage)
    (rest : list CraqServer) : forall m : JsonMessage,
  keeps_shape rest (stub_send unreachable_peer remote_failure rest m).1.
Proof.
  induction rest as [|peer rest' IH]; intros m; [constructor|].
  cbn [stub_send].
  pose proof (process_req_shape
                (fun m' w => stub_send unreachable_peer remote_failure w m')
                peer m rest') as (Hn & Hp & Ht & Hw).
  destruct (_process_req _ peer m rest') as [[peer' rest''] r].
  cbn [fst snd] in *. constructor; [done|].
  destruct Hw as [->|(m' & ->)]; [apply keeps_shape_refl|apply IH].
Qed.

Lemma client_req_keeps_shape
    (unreachable_peer : JsonMessage -> result JsonMessage)
    (remote_failure : exn -> result JsonMessage)
    (chain : list CraqServer) (i : nat) (msg : JsonMessage) :
  keeps_shape chain (client_req unreachable_peer remote_failure chain i msg).1.
Proof.
  unfold client_req, serve.
  destruct (drop i chain) as [|self rest] eqn:Hdrop; [apply keeps_shape_refl|].
  pose proof (process_req_shape
                (fun m w => stub_send unreachable_peer remote_failure w m)
                self msg rest) as (Hn & Hp & Ht & Hw).
  destruct (_process_req _ self msg rest) as [[self' rest'] r].
  cbn [fst snd] in *.
  rewrite <- (take_drop i chain) at 1. rewrite Hdrop.
  apply Forall2_app; [apply keeps_shape_refl|].
  constructor; [done|].
  destruct Hw as [->|(m' & ->)];
    [apply keeps_shape_refl|apply stub_send_keeps_shape].
Qed.

Lemma run_keeps_shape
    (unreachable_peer : JsonMessage -> result JsonMessage)
    (remote_failure : exn -> result JsonMessage)
    (history : list (nat * JsonMessage)) : forall chain : list CraqServer,
  keeps_shape chain (run unreachable_peer remote_failure chain history).
Proof.
  induction history as [|[i msg] history' IH]; intros chain.
  - apply keeps_shape_refl.
  - simpl. eapply keeps_shape_trans; [|apply IH].
    apply client_req_keeps_shape.
Qed.

(** C6. A SET handled by a replica without successor writes (version,
    value) into its clean map, answers OK, sends nothing and leaves its
    dirty map as it was, as does every other message it handles; and
    after any history of client messages to the replicas of the cluster,
    the dirty map of the tail "d" is empty, and stays so while "d"
    answers OK to any SET. *)
Theorem tail_never_dirty {W : Type}
    (send : JsonMessage -> W -> W * result JsonMessage)
    (self : CraqServer) (req req' : KVSetRequest) (w : W) (msg : JsonMessage)
    (unreachable_peer : JsonMessage -> result JsonMessage)
    (remote_failure : exn -> result JsonMessage)
    (history : list (nat * JsonMessage)) :
  next self = None ->
  stamp_version self req = Ret req' ->
  ((_set send self req w).2 = Ret (status_msg "OK") /\
   (_set send self req w).1.2 = w /\
   store (_set send self req w).1.1 =
     <[set_key req := (version req', set_val req)]> (store self) /\
   temp_store (_set send self req w).1.1 = temp_store self) /\
  temp_store (_process_req send self msg w).1.1 = temp_store self /\
  exists a b c d,
    run unreachable_peer remote_failure CraqCluster history = [a; b; c; d] /\
    next d = None /\ temp_store d = ∅ /\
    forall r : KVSetRequest,
      (_set send d r w).2 = Ret (status_msg "OK") /\
      temp_store (_set send d r w).1.1 = ∅.
Proof.
  intros Hn Hst. split; [|split].
  - rewrite (_set_tail send self req w Hn), Hst. done.
  - by apply (process_req_shape send self msg w).
  - pose proof (run_keeps_shape unreachable_peer remote_failure history
                  CraqCluster) as H.
    generalize dependent (run unreachable_peer remote_failure CraqCluster
                              history).
    intros final H. unfold keeps_shape, CraqCluster in H.
    repeat match goal with
           | H : Forall2 _ (_ :: _) _ |- _ =>
               apply Forall2_cons_inv_l in H as (? & ? & ? & H & ->)
           | H : Forall2 _ [] _ |- _ => apply Forall2_nil_inv_l in H as ->
           end.
    do 4 eexists. split; [done|].
    match goal with
    | H : next ?d = _ /\ prev ?d = _ /\ _ |- next ?d = None /\ _ =>
        destruct H as (Hnd & Hpd & Htd); simpl in Hnd, Hpd, Htd;
        specialize (Htd eq_refl)
    end.
    split; [done|]. split; [done|]. intros r.
    rewrite (_set_tail send _ r w Hnd). unfold stamp_version.
    rewrite Hpd. done.
Qed.

Lemma tail_never_dirty_witness :
  let d := new_server "d" None (Some "c") "d" in
  ((_set failing_stub d forwarded_write []).2 = Ret (status_msg "OK") /\
   (_set failing_stub d forwarded_write []).1.2 = [] /\
   store (_set failing_stub d forwarded_write []).1.1 =
     <[set_key forwarded_write := (version forwarded_write, set_val forwarded_write)]>
       (store d) /\
   temp_store (_set failing_stub d forwarded_write []).1.1 = temp_store d) /\
  temp_store (_process_req failing_stub d (get_msg "k") []).1.1 = temp_store d /\
  exists a b c d',
    run (fun _ => Raise TransportError) (fun _ => Raise TransportError)
        CraqCluster [(0%nat, set_msg "k" "0"); (3%nat, get_msg "k")] =
      [a; b; c; d'] /\
    next d' = None /\ temp_store d' = ∅ /\
    forall r : KVSetRequest,
      (_set failing_stub d' r []).2 = Ret (status_msg "OK") /\
      temp_store (_set failing_stub d' r []).1.1 = ∅.
Proof.
  intros d.
  apply (tail_never_dirty failing_stub d forwarded_write forwarded_write []
           (get_msg "k") (fun _ => Raise TransportError)
           (fun _ => Raise TransportError)
           [(0%nat, set_msg "k" "0"); (3%nat, get_msg "k")]);
    reflexivity.
Defined.

(** ** Dirty versions and the clean version *)

Lemma dirty_above_clean_ext (self self' : CraqServer) :
  store self' = store self ->
  temp_store self' = temp_store self ->
  dirty_above_clean self -> dirty_above_clean self'.
Proof. unfold dirty_above_clean. intros -> ->. done. Qed.

Lemma _set_stamp_fails {W : Type}
    (send : JsonMessage -> W -> W * result JsonMessage)
    (self : CraqServer) (req : KVSetRequest) (w : W) (e : exn) :
  stamp_version self req = Raise e ->
  _set send self req w = (with_lock self (set_key req), w, Raise e).
Proof. intros H. unfold _set. by rewrite stamp_version_with_lock, H. Qed.

(** At the head, a key without dirty version gets the version that
    follows its clean version. *)
Lemma stamp_version_above_clean (self : CraqServer) (req req' : KVSetRequest) :
  prev self = None ->
  dirty_versions self (set_key req) = None ->
  stamp_version self req = Ret req' ->
  forall cv val, store self !! set_key req = Some (cv, val) ->
                 ver_lt cv (version req').
Proof.
  intros Hp Hd Hst cv val Hcv. unfold stamp_version in Hst.
  rewrite Hp in Hst. unfold current_version in Hst. rewrite Hd, Hcv in Hst.
  simpl in Hst. destruct cv as [z|]; [|done]. simpl in Hst.
  injection Hst as <-. simpl. lia.
Qed.

Lemma served_set_Some (self : CraqServer) (msg : JsonMessage)
    (req' : KVSetRequest) :
  served_set self msg = Some req' ->
  exists req, j_type msg = Some "SET" /\ mkKVSetRequest msg = Ret req /\
              stamp_version self req = Ret req'.
Proof.
  unfold served_set. case_decide as Hs; [|done].
  destruct (mkKVSetRequest msg) as [req|e]; [|done].
  destruct (stamp_version self req) as [r|e] eqn:Hst; [|done].
  intros [= <-]. eauto.
Qed.

(** A message that is not a served SET leaves both stores as they are. *)
Lemma served_set_None {W : Type}
    (send : JsonMessage -> W -> W * result JsonMessage)
    (self : CraqServer) (msg : JsonMessage) (w : W) :
  served_set self msg = None ->
  store (_process_req send self msg w).1.1 = store self /\
  temp_store (_process_req send self msg w).1.1 = temp_store self.
Proof.
  unfold served_set. case_decide as Hs; cycle 1.
  { intros _. by destruct (process_req_not_set send self msg w Hs)
      as [(Hst & Ht & _) _]. }
  unfold _process_req. rewrite Hs. simpl.
  destruct (mkKVSetRequest msg) as [req|e]; [|done].
  destruct (stamp_version self req) as [r|e] eqn:Hst; [done|].
  intros _. by rewrite (_set_stamp_fails send self req w e Hst).
Qed.

(** A SET with room keeps the invariant, and a SET that keeps it had
    room. *)
Lemma set_keeps_invariant_iff_room {W : Type}
    (send : JsonMessage -> W -> W * result JsonMessage)
    (self : CraqServer) (req req' : KVSetRequest) (w : W) :
  dirty_above_clean self ->
  stamp_version self req = Ret req' ->
  dirty_above_clean (_set send self req w).1.1 <->
  room_for self (set_key req') (version req')
           (forward_outcome send self req' w).
Proof.
  intros Hinv Hst. unfold forward_outcome, room_for.
  destruct (stamp_version_fields _ _ _ Hst) as (Hk & Hv & _).
  rewrite Hk. cbn zeta.
  destruct (next self) as [n|] eqn:Hn.
  - rewrite (_set_forward send self req req' w n Hn Hst). cbn zeta.
    destruct (send (set_json req') w) as [w' [resp|e]]; cbn [fst snd]; split.
    + intros Hafter dv Hne Hdv.
      apply (Hafter (set_key req) (version req') (set_val req)
               (delete (version req')
                       (default ∅ (temp_store self !! set_key req))) dv).
      * simpl. apply lookup_insert_eq.
      * simpl. apply lookup_insert_eq.
      * by rewrite lookup_delete_ne.
    + intros Hroom key cv val d dv. simpl.
      destruct (decide (key = set_key req)) as [->|Hne].
      * rewrite !lookup_insert_eq. intros [= <- <-] [= <-] [x Hx].
        apply lookup_delete_Some in Hx as [Hne Hx]. apply Hroom; eauto.
      * rewrite !lookup_insert_ne by done. apply Hinv.
    + intros Hafter cv val Hcl.
      apply (Hafter (set_key req) cv val
               (<[version req' := set_val req]>
                  (default ∅ (temp_store self !! set_key req)))
               (version req')).
      * done.
      * simpl. apply lookup_insert_eq.
      * rewrite lookup_insert_eq. eauto.
    + intros Hroom key cv val d dv. simpl.
      destruct (decide (key = set_key req)) as [->|Hne].
      * rewrite !lookup_insert_eq. intros Hcl [= <-] [x Hx].
        apply lookup_insert_Some in Hx as [[<- _]|[_ Hx]].
        -- by apply (Hroom cv val).
        -- destruct (temp_store self !! set_key req) as [d|] eqn:Ht;
             simpl in Hx; [|by rewrite lookup_empty in Hx].
           apply (Hinv (set_key req) cv val d dv); eauto.
      * rewrite !lookup_insert_ne by done. apply Hinv.
  - unfold _set. rewrite stamp_version_with_lock, Hst. simpl. rewrite Hn.
    cbn [fst snd]. rewrite Hk, Hv. split.
    + intros Hafter dv Hdv.
      destruct (temp_store self !! set_key req) as [d|] eqn:Ht;
        simpl in Hdv; [|by destruct Hdv as [x Hx]; rewrite lookup_empty in Hx].
      apply (Hafter (set_key req) (version req') (set_val req) d dv);
        [simpl; apply lookup_insert_eq|done..].
    + intros Hroom key cv val d dv. simpl.
      destruct (decide (key = set_key req)) as [->|Hne].
      * rewrite !lookup_insert_eq. intros [= <- <-] Ht Hdv.
        apply Hroom. by rewrite Ht.
      * rewrite !lookup_insert_ne by done. apply Hinv.
Qed.

(** At the head, a write whose forward fails always has room; any other
    write has room exactly when the key has no dirty version. *)
Lemma head_room (self : CraqServer) (req req' : KVSetRequest)
    (forward : option (result JsonMessage)) :
  dirty_above_clean self ->
  prev self = None ->
  stamp_version self req = Ret req' ->
  match forward with
  | Some (Raise _) => room_for self (set_key req') (version req') forward
  | _ => room_for self (set_key req') (version req') forward <->
         dirty_versions self (set_key req') = None
  end.
Proof.
  intros Hinv Hp Hst.
  destruct (stamp_version_fields _ _ _ Hst) as (Hk & _ & _). rewrite Hk.
  unfold stamp_version in Hst. rewrite Hp in Hst.
  destruct (current_version self (set_key req)) as [[c|]|] eqn:Hcur;
    simpl in Hst; try discriminate.
  injection Hst as <-. change (version (with_version req (Some (c + 1))))
    with (Some (c + 1)).
  apply current_version_spec in Hcur.
  pose proof (dirty_versions_default self (set_key req)) as Hdef.
  assert (Hfull :
    (forall dv, is_Some (default ∅ (temp_store self !! set_key req) !! dv) ->
                ver_lt (Some (c + 1)) dv) <->
    dirty_versions self (set_key req) = None).
  { destruct (dirty_versions self (set_key req)) as [d|]; rewrite Hdef.
    - destruct Hcur as [Hin _]. split; [|done]. intros Hroom.
      specialize (Hroom (Some c) Hin). simpl in Hroom. lia.
    - split; [done|]. intros _ dv [x Hx]. by rewrite lookup_empty in Hx. }
  assert (Hothers :
    (forall dv, dv <> Some (c + 1) ->
                is_Some (default ∅ (temp_store self !! set_key req) !! dv) ->
                ver_lt (Some (c + 1)) dv) <->
    dirty_versions self (set_key req) = None).
  { destruct (dirty_versions self (set_key req)) as [d|]; rewrite Hdef.
    - destruct Hcur as [Hin _]. split; [|done]. intros Hroom.
      assert (Hne : Some c <> Some (c + 1)) by (intros [= H]; lia).
      specialize (Hroom (Some c) Hne Hin). simpl in Hroom. lia.
    - split; [done|]. intros _ dv _ [x Hx]. by rewrite lookup_empty in Hx. }
  destruct forward as [[resp|e]|]; unfold room_for; cbn zeta;
    [exact Hothers| |exact Hfull].
  intros cv val Hcl.
  destruct (dirty_versions self (set_key req)) as [d|] eqn:Hd.
  - destruct Hcur as [Hin _]. apply dirty_versions_Some in Hd as [Ht _].
    pose proof (Hinv (set_key req) cv val d (Some c) Hcl Ht Hin) as Hlt.
    destruct cv as [x|]; simpl in *; [lia|done].
  - rewrite Hcl in Hcur. subst cv. simpl. lia.
Qed.

(** C4, as the code has it.  The invariant survives every GET and QUERY
    and every SET that is turned down.  It survives a SET the replica
    records exactly when the replica has room for it ([room_for]): the
    forward is answered and every other dirty version of the key is
    greater than the version written, or the forward fails and the
    version written is greater than the clean version of the key, or
    there is no successor and every dirty version of the key is greater
    than the version written.  At the head, which picks the version, a
    write whose forward fails always keeps the invariant, and any other
    write keeps it exactly when the key has no dirty version on the
    head. *)
Theorem dirty_above_clean_preserved {W : Type}
    (send : JsonMessage -> W -> W * result JsonMessage)
    (self : CraqServer) (msg : JsonMessage) (w : W) :
  dirty_above_clean self ->
  let after := (_process_req send self msg w).1.1 in
  match served_set self msg with
  | None => dirty_above_clean after
  | Some req' =>
      let forward := forward_outcome send self req' w in
      (dirty_above_clean after <->
       room_for self (set_key req') (version req') forward) /\
      (prev self = None ->
       match forward with
       | Some (Raise _) => dirty_above_clean after
       | _ => dirty_above_clean after <->
              dirty_versions self (set_key req') = None
       end)
  end.
Proof.
  intros Hinv. cbn zeta.
  destruct (served_set self msg) as [req'|] eqn:Hserved.
  - destruct (served_set_Some _ _ _ Hserved) as (req & Hs & Hreq & Hst).
    assert (Hproc : _process_req send self msg w = _set send self req w).
    { unfold _process_req. rewrite Hs, Hreq. done. }
    rewrite Hproc.
    pose proof (set_keeps_invariant_iff_room send self req req' w Hinv Hst)
      as Hiff.
    split; [exact Hiff|]. intros Hp.
    pose proof (head_room self req req' (forward_outcome send self req' w)
                  Hinv Hp Hst) as Hroom.
    destruct (forward_outcome send self req' w) as [[resp|e]|];
      [by rewrite Hiff|by apply Hiff|by rewrite Hiff].
  - destruct (served_set_None send self msg w Hserved) as [Hst Ht].
    by apply (dirty_above_clean_ext self).
Qed.

Lemma new_server_dirty_above_clean (nm : string) (nxt prv : option string)
    (tl : string) :
  dirty_above_clean (new_server nm nxt prv tl).
Proof.
  intros key cv val d dv H. unfold new_server in H. cbn [store] in H.
  by rewrite lookup_empty in H.
Qed.

Lemma lagging_head_stores :
  temp_store lagging_head = {[ "k" := {[ Some 2 := "b" ]} ]} /\
  store lagging_head = {[ "k" := (Some 1, "a") ]}.
Proof. vm_compute. done. Qed.

Lemma lagging_head_dirty_above_clean : dirty_above_clean lagging_head.
Proof.
  destruct lagging_head_stores as [Ht Hst]. intros key cv val d dv.
  rewrite Ht, Hst. intros Hcl Hd Hdv.
  apply lookup_singleton_Some in Hcl as [<- [= <- <-]].
  rewrite lookup_singleton_eq in Hd. injection Hd as <-.
  destruct Hdv as [x Hx]. apply lookup_singleton_Some in Hx as [<- _].
  simpl. lia.
Qed.

Lemma dirty_above_clean_preserved_witness :
  let after :=
    (_process_req failing_stub lagging_head (set_msg "k" "c") []).1.1 in
  (store lagging_head !! "k" = Some (Some 1, "a") /\
   temp_store lagging_head !! "k" = Some {[ Some 2 := "b" ]}) /\
  (store after !! "k" = Some (Some 1, "a") /\
   temp_store after !! "k" ≫= (.!! Some 2) = Some "b" /\
   temp_store after !! "k" ≫= (.!! Some 3) = Some "c") /\
  dirty_above_clean after.
Proof.
  cbn zeta. split; [vm_compute; done|]. split; [vm_compute; done|].
  pose proof (dirty_above_clean_preserved failing_stub lagging_head
                (set_msg "k" "c") [] lagging_head_dirty_above_clean) as H.
  cbn zeta in H.
  change (served_set lagging_head (set_msg "k" "c"))
    with (Some (with_version (client_write "c") (Some 3))) in H.
  destruct H as [_ H]. exact (H eq_refl).
Defined.

(** The version a forwarded SET carries matters as well: on a replica
    that holds version 5 of "k" clean and nothing dirty, a SET of
    version 3 whose forward fails leaves version 3 dirty below it. *)
Example forwarded_old_version_breaks_invariant :
  let msg := set_version (set_msg "k" "v") (Some 3) in
  dirty_above_clean settled_replica /\
  dirty_versions settled_replica "k" = None /\
  ~ dirty_above_clean (_process_req failing_stub settled_replica msg []).1.1.
Proof.
  cbn zeta. split; [|split; [done|]].
  - intros key cv val d dv _ Ht. simpl in Ht. by rewrite lookup_empty in Ht.
  - intros Hinv.
    specialize (Hinv "k" (Some 5) "old" {[ Some 3 := "v" ]} (Some 3)).
    assert (H : ver_lt (Some 5) (Some 3)).
    { apply Hinv; [vm_compute; done..|]. rewrite lookup_singleton_eq. eauto. }
    simpl in H. lia.
Qed.

Lemma stale_head_stores :
  temp_store stale_head = {[ "k" := {[ Some 1 := "a" ]} ]} /\
  store stale_head = ∅.
Proof. vm_compute. done. Qed.

(** C4 as stated fails: the head that kept version 1 dirty after a failed
    forward satisfies the invariant, and the next write, which goes
    through, makes version 2 clean and leaves version 1 dirty below it. *)
Lemma dirty_above_clean_counterexample :
  dirty_above_clean stale_head /\
  (_process_req ok_stub stale_head (set_msg "k" "b") []).2 =
    Ret (status_msg "OK") /\
  ~ dirty_above_clean
      (_process_req ok_stub stale_head (set_msg "k" "b") []).1.1.
Proof.
  split; [|split].
  - destruct stale_head_stores as [_ Hst]. intros key cv val d dv H.
    rewrite Hst in H. by rewrite lookup_empty in H.
  - vm_compute. done.
  - intros Hinv.
    change (_process_req ok_stub stale_head (set_msg "k" "b") []).1.1
      with orphan_head in Hinv.
    destruct orphan_head_stores as [Hts Hst].
    specialize (Hinv "k" (Some 2) "b" {[ Some 1 := "a" ]} (Some 1)).
    rewrite Hts, Hst in Hinv. rewrite !lookup_singleton_eq in Hinv.
    specialize (Hinv eq_refl eq_refl (mk_is_Some _ _ eq_refl)).
    simpl in Hinv. lia.
Qed.

(** ** A write, then a read *)

Lemma keeps_shape_length (c c' : list CraqServer) :
  keeps_shape c c' -> length c = length c'.
Proof. apply Forall2_length. Qed.

Lemma keeps_shape_linked_from (c c' : list CraqServer) :
  keeps_shape c c' -> forall b, linked_from b c -> linked_from b c'.
Proof.
  induction 1 as [|s s' t t' (Hn & Hp & _) Hrest IH]; intros b; [done|].
  simpl. intros (Hprev & Hnext & Hl). rewrite Hn, Hp.
  split; [done|]. split; [|by apply IH].
  rewrite Hnext. apply Forall2_length in Hrest.
  destruct t, t'; simpl in *; done.
Qed.

Lemma keeps_shape_no_tail_dirty (key : string) (c c' : list CraqServer) :
  keeps_shape c c' -> no_tail_dirty key c -> no_tail_dirty key c'.
Proof.
  unfold no_tail_dirty.
  induction 1 as [|s s' t t' (Hn & Hp & Ht) Hrest IH]; intros Hc; [done|].
  apply Forall_cons in Hc as [Hs Hc]. constructor; [|by apply IH].
  rewrite Hn. intros Hnone. unfold dirty_versions.
  rewrite (Ht Hnone). by apply Hs.
Qed.

Lemma linked_from_drop (i : nat) : forall (c : list CraqServer) (b : bool),
  linked_from b c -> exists b', linked_from b' (drop i c).
Proof.
  induction i as [|i IH]; intros c b Hl.
  - exists b. by rewrite drop_0.
  - destruct c as [|s t]; [by exists b|]. simpl.
    destruct Hl as (_ & _ & Hl). by apply (IH t true).
Qed.

Lemma serve_keeps_shape
    (unreachable_peer : JsonMessage -> result JsonMessage)
    (remote_failure : exn -> result JsonMessage)
    (self : CraqServer) (rest : list CraqServer) (msg : JsonMessage) :
  keeps_shape (self :: rest)
    ((serve unreachable_peer remote_failure self rest msg).1.1 ::
     (serve unreachable_peer remote_failure self rest msg).1.2).
Proof.
  unfold serve.
  pose proof (process_req_shape
                (fun m w => stub_send unreachable_peer remote_failure w m)
                self msg rest) as (Hn & Hp & Ht & Hw).
  destruct (_process_req _ self msg rest) as [[self' rest'] r].
  cbn [fst snd] in *. constructor; [done|].
  destruct Hw as [->|(m' & ->)];
    [apply keeps_shape_refl|apply stub_send_keeps_shape].
Qed.

(** Sending to the next replica is that replica serving the message. *)
Lemma stub_send_cons
    (unreachable_peer : JsonMessage -> result JsonMessage)
    (remote_failure : exn -> result JsonMessage)
    (peer : CraqServer) (rest : list CraqServer) (m : JsonMessage) :
  stub_send unreachable_peer remote_failure (peer :: rest) m =
    let out := serve unreachable_peer remote_failure peer rest m in
    (out.1.1 :: out.1.2,
     match out.2 with Ret x => Ret x | Raise e => remote_failure e end).
Proof.
  cbn [stub_send]. unfold serve.
  destruct (_process_req _ peer m rest) as [[peer' rest'] r]. done.
Qed.

(** A SET whose version could be settled goes down the whole chain:
    every replica from the one that serves it to the tail commits it
    under that version, and the answer is OK. *)
Lemma serve_set
    (unreachable_peer : JsonMessage -> result JsonMessage)
    (remote_failure : exn -> result JsonMessage)
    (key v : string) (rest : list CraqServer) :
  forall (self : CraqServer) (m : JsonMessage) (b : bool) (req' : KVSetRequest),
  linked_from b (self :: rest) ->
  no_tail_dirty key (self :: rest) ->
  j_type m = Some "SET" -> j_key m = Some key -> j_val m = Some v ->
  stamp_version self {| set_key := key; set_val := v; set_json := m |} =
    Ret req' ->
  let out := serve unreachable_peer remote_failure self rest m in
  out.2 = Ret (status_msg "OK") /\
  Forall (committed key (version req') v) (out.1.1 :: out.1.2).
Proof.
  induction rest as [|peer rest' IH];
    intros self m b req' Hl Hnd Hty Hk Hv Hst;
    unfold serve, _process_req; rewrite Hty; simpl;
    unfold mkKVSetRequest; rewrite Hk, Hv;
    destruct Hl as (_ & Hnext & Hl);
    apply Forall_cons in Hnd as [Hself Hnd].
  - assert (Hn : next self = None).
    { destruct (next self); [|done]. by destruct (proj1 Hnext). }
    rewrite (_set_tail _ self _ [] Hn), Hst. simpl. split; [done|].
    constructor; [|done]. split; simpl.
    + apply lookup_insert_eq.
    + intros d Hd. specialize (Hself Hn).
      apply dirty_versions_None in Hself as [H|H]; rewrite H in Hd; [done|].
      injection Hd as <-. apply lookup_empty.
  - destruct (proj2 Hnext) as [n Hn]; [done|].
    rewrite (_set_forward _ self _ req' (peer :: rest') n Hn Hst).
    cbn zeta. cbn [set_key set_val].
    destruct (stamp_version_fields _ _ _ Hst) as (Hk' & Hv' & Hj).
    cbn [set_key set_val set_json] in Hk', Hv', Hj.
    rewrite stub_send_cons. cbn zeta.
    assert (Hpeer : is_Some (prev peer)) by (by apply Hl).
    destruct Hpeer as [p Hp].
    destruct (IH peer (set_json req') true
                 {| set_key := key; set_val := v; set_json := set_json req' |}
                 Hl Hnd) as [Hr Hc].
    { by rewrite Hj. }
    { by rewrite Hj. }
    { by rewrite Hj. }
    { unfold stamp_version. by rewrite Hp. }
    cbn zeta in Hr, Hc. rewrite Hr. cbn [fst snd]. split; [done|].
    constructor; [|exact Hc]. split; simpl.
    + apply lookup_insert_eq.
    + intros d. rewrite lookup_insert_eq. intros [= <-]. apply lookup_delete_eq.
Qed.

(** A QUERY for a committed key, sent down the chain, comes back with
    the version the tail holds. *)
Lemma stub_send_query
    (unreachable_peer : JsonMessage -> result JsonMessage)
    (remote_failure : exn -> result JsonMessage)
    (key v : string) (ver : pyver) (rest : list CraqServer) :
  forall (b : bool) (m : JsonMessage),
  rest <> [] ->
  linked_from b rest ->
  Forall (committed key ver v) rest ->
  j_type m = Some "QUERY" -> j_key m = Some key ->
  (stub_send unreachable_peer remote_failure rest m).2 = Ret (ver_msg ver).
Proof.
  induction rest as [|peer rest' IH]; intros b m Hne Hl Hc Hty Hk; [done|].
  destruct Hl as (_ & Hnext & Hl). apply Forall_cons in Hc as [[Hst _] Hc].
  cbn [stub_send]. unfold _process_req. rewrite Hty. simpl.
  unfold mkKVQueryRequest. rewrite Hk. unfold _query. simpl.
  destruct (next peer) as [n|] eqn:Hn.
  - assert (Hne' : rest' <> []) by (apply Hnext; eauto).
    specialize (IH true m Hne' Hl Hc Hty Hk).
    destruct (stub_send _ _ rest' m) as [rest'' r]. simpl in *. by subst r.
  - rewrite Hst. done.
Qed.

(** A GET for a committed key, served anywhere in the chain, answers OK
    with the committed value. *)
Lemma serve_get
    (unreachable_peer : JsonMessage -> result JsonMessage)
    (remote_failure : exn -> result JsonMessage)
    (key v : string) (ver : pyver) (self : CraqServer)
    (rest : list CraqServer) (b : bool) :
  linked_from b (self :: rest) ->
  no_tail_dirty key (self :: rest) ->
  Forall (committed key ver v) (self :: rest) ->
  (serve unreachable_peer remote_failure self rest (get_msg key)).2 =
    Ret (ok_val_msg v).
Proof.
  intros (_ & Hnext & Hl) Hnd Hc.
  apply Forall_cons in Hnd as [Hself _].
  apply Forall_cons in Hc as [[Hst Hts] Hc].
  unfold serve, _process_req, _get. simpl.
  change (dirty_versions (with_lock self key) key)
    with (dirty_versions self key).
  destruct (dirty_versions self key) as [d|] eqn:Hd.
  - assert (Hrest : rest <> []).
    { apply Hnext. destruct (next self) as [n|] eqn:Hn; [eauto|].
      by specialize (Hself eq_refl). }
    apply dirty_versions_Some in Hd as [Hd Hne].
    pose proof (stub_send_query unreachable_peer remote_failure key v ver
                  rest true (query_msg key) Hrest Hl Hc eq_refl eq_refl) as Hq.
    destruct (stub_send _ _ rest (query_msg key)) as [rest' r].
    simpl in Hq. subst r. simpl. rewrite (Hts d Hd), Hst. done.
  - rewrite Hst. done.
Qed.

Lemma client_req_head
    (unreachable_peer : JsonMessage -> result JsonMessage)
    (remote_failure : exn -> result JsonMessage)
    (head : CraqServer) (rest : list CraqServer) (msg : JsonMessage) :
  client_req unreachable_peer remote_failure (head :: rest) 0 msg =
    ((serve unreachable_peer remote_failure head rest msg).1.1 ::
     (serve unreachable_peer remote_failure head rest msg).1.2,
     Some (serve unreachable_peer remote_failure head rest msg).2).
Proof.
  unfold client_req. rewrite drop_0, take_0.
  destruct (serve _ _ head rest msg) as [[head' rest'] r]. done.
Qed.

(** Once the head has answered a client's SET, every replica has
    committed it under one version, and the chain is as well formed as
    it was. *)
Lemma answered_set_is_committed
    (unreachable_peer : JsonMessage -> result JsonMessage)
    (remote_failure : exn -> result JsonMessage)
    (chain : list CraqServer) (k v : string) (response : JsonMessage) :
  linked chain ->
  no_tail_dirty k chain ->
  (client_req unreachable_peer remote_failure chain 0 (set_msg k v)).2 =
    Some (Ret response) ->
  let chain' :=
    (client_req unreachable_peer remote_failure chain 0 (set_msg k v)).1 in
  response = status_msg "OK" /\
  length chain' = length chain /\
  linked_from false chain' /\
  no_tail_dirty k chain' /\
  exists ver, Forall (committed k ver v) chain'.
Proof.
  intros [Hne Hl] Hnd Hset.
  destruct chain as [|head rest]; [done|]. clear Hne.
  rewrite client_req_head in Hset |- *. cbn [fst snd] in Hset |- *.
  pose proof (serve_keeps_shape unreachable_peer remote_failure head rest
                (set_msg k v)) as Hshape.
  destruct (stamp_version head
              {| set_key := k; set_val := v; set_json := set_msg k v |})
    as [req'|e] eqn:Hst.
  - pose proof (serve_set unreachable_peer remote_failure k v rest head
                  (set_msg k v) false req' Hl Hnd eq_refl eq_refl eq_refl Hst)
      as [Hr Hc].
    cbn zeta in Hr, Hc. rewrite Hr in Hset. injection Hset as <-.
    split; [done|]. split; [symmetry; by apply keeps_shape_length|].
    split; [by apply (keeps_shape_linked_from _ _ Hshape)|].
    split; [by apply (keeps_shape_no_tail_dirty k _ _ Hshape)|].
    by exists (version req').
  - unfold serve, _process_req in Hset. simpl in Hset.
    rewrite (_set_stamp_fails _ head _ rest e Hst) in Hset. done.
Qed.

(** A committed key is read back from any replica of the chain. *)
Lemma committed_is_read_back
    (unreachable_peer : JsonMessage -> result JsonMessage)
    (remote_failure : exn -> result JsonMessage)
    (chain : list CraqServer) (k v : string) (ver : pyver) (b : bool)
    (i : nat) :
  linked_from b chain ->
  no_tail_dirty k chain ->
  Forall (committed k ver v) chain ->
  (i < length chain)%nat ->
  (client_req unreachable_peer remote_failure chain i (get_msg k)).2 =
    Some (Ret (ok_val_msg v)).
Proof.
  intros Hl Hnd Hc Hi. unfold client_req.
  destruct (drop i chain) as [|self tl] eqn:Hdrop.
  { apply (f_equal length) in Hdrop. rewrite length_drop in Hdrop.
    simpl in *. lia. }
  destruct (linked_from_drop i _ _ Hl) as [b' Hlb]. rewrite Hdrop in Hlb.
  pose proof (serve_get unreachable_peer remote_failure k v ver
                self tl b' Hlb) as Hget.
  rewrite <- Hdrop in Hget.
  specialize (Hget (Forall_drop _ i _ Hnd) (Forall_drop _ i _ Hc)).
  destruct (serve _ _ self tl (get_msg k)) as [[self' tl'] r].
  simpl in *. by subst r.
Qed.

(** C7. On a chain whose links are in place and whose tail holds no
    dirty version of [k], once the head has answered a client's
    SET(k, v), a client's GET(k) served by any replica of the chain
    answers OK with [v]. *)
Theorem set_then_get
    (unreachable_peer : JsonMessage -> result JsonMessage)
    (remote_failure : exn -> result JsonMessage)
    (chain : list CraqServer) (k v : string) (response : JsonMessage)
    (i : nat) :
  linked chain ->
  no_tail_dirty k chain ->
  (client_req unreachable_peer remote_failure chain 0 (set_msg k v)).2 =
    Some (Ret response) ->
  (i < length chain)%nat ->
  response = status_msg "OK" /\
  (client_req unreachable_peer remote_failure
     (client_req unreachable_peer remote_failure chain 0 (set_msg k v)).1
     i (get_msg k)).2 = Some (Ret (ok_val_msg v)).
Proof.
  intros Hl Hnd Hset Hi.
  destruct (answered_set_is_committed unreachable_peer remote_failure chain
              k v response Hl Hnd Hset) as (Hr & Hlen & Hl' & Hnd' & ver & Hc).
  split; [done|].
  apply (committed_is_read_back _ _ _ k v ver false i Hl' Hnd' Hc).
  by rewrite Hlen.
Qed.

Lemma CraqCluster_linked : linked CraqCluster.
Proof.
  split; [done|]. unfold CraqCluster, new_server. simpl.
  repeat split; intros H; try done; try (by destruct H); eauto.
Qed.

Lemma CraqCluster_no_tail_dirty (key : string) : no_tail_dirty key CraqCluster.
Proof. repeat constructor. Qed.

Lemma set_then_get_witness :
  status_msg "OK" = status_msg "OK" /\
  (client_req (fun _ => Raise TransportError) (fun _ => Raise TransportError)
     (client_req (fun _ => Raise TransportError) (fun _ => Raise TransportError)
                 CraqCluster 0 (set_msg "k" "0")).1
     2 (get_msg "k")).2 = Some (Ret (ok_val_msg "0")).
Proof.
  apply (set_then_get (fun _ => Raise TransportError)
           (fun _ => Raise TransportError) CraqCluster "k" "0"
           (status_msg "OK") 2).
  - exact CraqCluster_linked.
  - exact (CraqCluster_no_tail_dirty "k").
  - vm_compute. reflexivity.
  - simpl. lia.
Defined.

(** The same on the cluster, after any history of client messages: the
    links are those the cluster was built with and the tail has no dirty
    version, so a SET the head has answered is read back everywhere. *)
Corollary cluster_set_then_get
    (unreachable_peer : JsonMessage -> result JsonMessage)
    (remote_failure : exn -> result JsonMessage)
    (history : list (nat * JsonMessage)) (k v : string)
    (response : JsonMessage) (i : nat) :
  let chain := run unreachable_peer remote_failure CraqCluster history in
  (client_req unreachable_peer remote_failure chain 0 (set_msg k v)).2 =
    Some (Ret response) ->
  (i < 4)%nat ->
  (client_req unreachable_peer remote_failure
     (client_req unreachable_peer remote_failure chain 0 (set_msg k v)).1
     i (get_msg k)).2 = Some (Ret (ok_val_msg v)).
Proof.
  intros chain Hset Hi.
  pose proof (run_keeps_shape unreachable_peer remote_failure history
                CraqCluster) as Hshape. fold chain in Hshape.
  assert (Hlen : length chain = 4%nat).
  { apply keeps_shape_length in Hshape. by rewrite <- Hshape. }
  destruct (answered_set_is_committed unreachable_peer remote_failure chain
              k v response) as (Hr & Hlen' & Hl' & Hnd' & ver & Hc).
  - destruct CraqCluster_linked as [_ Hl]. split.
    + intros E. by rewrite E in Hlen.
    + by apply (keeps_shape_linked_from CraqCluster).
  - apply (keeps_shape_no_tail_dirty k CraqCluster); [done|].
    apply CraqCluster_no_tail_dirty.
  - done.
  - apply (committed_is_read_back _ _ _ k v ver false i Hl' Hnd' Hc).
    rewrite Hlen', Hlen. done.
Qed.

(** *** The order of floats *)

Ltac float_cases :=
  unfold flt, SFltb, SFcompare;
  repeat match goal with
         | x : spec_float |- _ => destruct x as [[]|[]| |[] ? ?]
         end;
  simpl; try done;
  change (Pos.compare_cont Eq) with Pos.compare;
  repeat match goal with
         | |- context [Z.compare ?x ?y] => destruct (Z.compare_spec x y)
         end;
  simpl; try done; try lia; subst;
  repeat match goal with
         | |- context [Pos.compare ?x ?y] => destruct (Pos.compare_spec x y)
         end;
  simpl; try done; try lia.

(** Nothing is below itself, and what is below something not above a
    third float is below that one. *)
Lemma flt_irrefl (a : pyfloat) : flt a a = false.
Proof. float_cases. Qed.

Lemma flt_lt_not_gt (a b c : pyfloat) :
  is_nan c = false ->
  flt a b = true -> flt c b = false -> flt a c = true.
Proof. float_cases. Qed.

Lemma flt_asym (a b : pyfloat) : flt a b = true -> flt b a = false.
Proof. float_cases. Qed.

Lemma flt_trans (a b c : pyfloat) :
  flt a b = true -> flt b c = true -> flt a c = true.
Proof.
  intros Hab Hbc. apply (flt_lt_not_gt a b c); [|done|by apply flt_asym].
  destruct c; try done. revert Hbc. clear. float_cases.
Qed.

(** Multiplication of floats is commutative. *)
Lemma fmul_comm (x y : pyfloat) : fmul x y = fmul y x.
Proof.
  unfold fmul, SFmul. destruct x as [sx|sx| |sx mx ex], y as [sy|sy| |sy my ey];
    try done; rewrite ?(xorb_comm sx sy); try done.
  by rewrite (Pos.mul_comm mx my), (Z.add_comm ex ey).
Qed.

(** *** The least loaded replica *)

(** [min] settles on the first of the lowest entries: the candidate is
    lower than every entry before it and no entry examined since is
    lower than the candidate. *)
Lemma min_from_spec (d : times) :
  forall (before : times) (best : TcpClient) (best_val : pyfloat) (since : times),
  Forall (fun p => is_nan p.2 = false) since ->
  Forall (fun p => is_nan p.2 = false) d ->
  Forall (fun p => flt best_val p.2 = true) before ->
  Forall (fun p => flt p.2 best_val = false) since ->
  exists before' server est after',
    (before ++ (best, best_val) :: since ++ d)%list =
      (before' ++ (server, est) :: after')%list /\
    min_from best best_val d = server /\
    Forall (fun p => flt est p.2 = true) before' /\
    Forall (fun p => flt p.2 est = false) after'.
Proof.
  induction d as [|[k v] t IH]; intros before best best_val since Hn Hnd Hb Hs.
  - exists before, best, best_val, since. rewrite app_nil_r. done.
  - apply Forall_cons in Hnd as [Hv Hnd]. simpl in Hv. simpl.
    destruct (flt v best_val) eqn:Hlt.
    + destruct (IH (before ++ (best, best_val) :: since)%list k v [])
        as (b' & s' & e' & a' & Heq & Hmin & Hb' & Ha'); [done|done| |done|].
      * apply Forall_app. split; [|apply Forall_cons; split].
        -- eapply Forall_impl; [exact Hb|]. intros p Hp. simpl in *.
           by apply (flt_trans v best_val).
        -- done.
        -- apply Forall_forall. intros p Hp.
           rewrite Forall_forall in Hn, Hs.
           apply (flt_lt_not_gt v best_val); [by apply Hn|done|by apply Hs].
      * exists b', s', e', a'. split; [|done].
        rewrite <- Heq. by rewrite <- !app_assoc.
    + destruct (IH before best best_val (since ++ [(k, v)])%list)
        as (b' & s' & e' & a' & Heq & Hmin & Hb' & Ha'); [|done|done| |].
      * apply Forall_app. split; [done|]. by repeat constructor.
      * apply Forall_app. split; [done|]. by repeat constructor.
      * exists b', s', e', a'. split; [|done].
        rewrite <- Heq. by rewrite <- !app_assoc.
Qed.

Lemma dict_get_middle (before after : times) (k : TcpClient) (v : pyfloat) :
  k ∉ before.*1 ->
  dict_get (before ++ (k, v) :: after) k = Some v.
Proof.
  induction before as [|[k' v'] t IH]; simpl; intros Hk.
  - by rewrite decide_True.
  - rewrite decide_False by set_solver. apply IH. set_solver.
Qed.

Lemma dict_set_middle (before after : times) (k : TcpClient) (v x : pyfloat) :
  k ∉ before.*1 ->
  dict_set (before ++ (k, v) :: after) k x = (before ++ (k, x) :: after)%list.
Proof.
  induction before as [|[k' v'] t IH]; simpl; intros Hk.
  - by rewrite decide_True.
  - rewrite decide_False by set_solver. rewrite IH; [done|set_solver].
Qed.

Lemma new_client_times (infos : list string) :
  NoDup (response_times (new_client infos)).*1 /\
  Forall (fun p => p.2 = f0_0) (response_times (new_client infos)) /\
  (response_times (new_client infos)).*1 = conns (new_client infos) /\
  conn_info <$> conns (new_client infos) = infos.
Proof.
  unfold new_client. cbn [response_times conns].
  assert (Hfst : forall cs : list TcpClient,
             ((fun conn : TcpClient => (conn, f0_0)) <$> cs).*1 = cs).
  { intros cs. rewrite <- list_fmap_compose. apply list_fmap_id. }
  rewrite Hfst. unfold connect_all. split_and!.
  - apply NoDup_alt. intros i j c Hi Hj.
    apply list_lookup_imap_Some in Hi as (x & _ & ->).
    apply list_lookup_imap_Some in Hj as (y & _ & [= ->]). done.
  - apply Forall_fmap. by apply Forall_true.
  - done.
  - apply list_eq. intros i. rewrite list_lookup_fmap, list_lookup_imap.
    by destruct (infos !! i).
Qed.

(** C8. A new client holds one connection per replica, in the order of
    [infos], and one estimate per connection, each 0.0: the keys of
    [response_times] are the connections, without repetition.  A read
    picks the first of the connections whose estimate is lowest (every
    connection before it has a higher estimate, none after it has a
    lower one), sends the GET on it, and once the response is there
    replaces that estimate by [0.3 * elapsed_time + 0.7 * estimate],
    leaving the others. *)
Theorem get_picks_least_loaded
    (send : TcpClient -> JsonMessage -> option JsonMessage)
    (elapsed_time : pyfloat) (self : CraqClient) (key : string)
    (infos : list string) :
  NoDup (response_times self).*1 ->
  Forall (fun p => is_nan p.2 = false) (response_times self) ->
  response_times self <> [] ->
  (NoDup (response_times (new_client infos)).*1 /\
   Forall (fun p => p.2 = f0_0) (response_times (new_client infos)) /\
   (response_times (new_client infos)).*1 = conns (new_client infos) /\
   conn_info <$> conns (new_client infos) = infos) /\
  exists before server est after,
    response_times self = (before ++ (server, est) :: after)%list /\
    Forall (fun p => flt est p.2 = true) before /\
    Forall (fun p => flt p.2 est = false) after /\
    _get_least_loaded_server self = Ret server /\
    match send server (get_msg key) with
    | None => get send elapsed_time self key = (self, Raise AssertionError)
    | Some response =>
        response_times (get send elapsed_time self key).1 =
          (before
           ++ (server, fadd (fmul f0_3 elapsed_time) (fmul f0_7 est)) :: after)%list
    end.
Proof.
  intros Hnodup Hnan Hne. split; [apply new_client_times|].
  destruct (response_times self) as [|[k v] t] eqn:Hrt; [done|]. clear Hne.
  apply Forall_cons in Hnan as [_ Hnan].
  destruct (min_from_spec t [] k v [] ltac:(done) Hnan ltac:(done) ltac:(done))
    as (before & server & est & after & Heq & Hmin & Hb & Ha).
  simpl in Heq. exists before, server, est, after.
  split; [done|]. split; [done|]. split; [done|].
  assert (Hleast : _get_least_loaded_server self = Ret server).
  { unfold _get_least_loaded_server. by rewrite Hrt, Hmin. }
  split; [done|].
  assert (Hfresh : server ∉ before.*1).
  { rewrite Heq, fmap_app, fmap_cons in Hnodup.
    apply NoDup_app in Hnodup as (_ & Hdisj & _).
    intros Hin. apply (Hdisj server Hin). left. }
  unfold get. rewrite Hleast, Hrt, Heq.
  destruct (send server (get_msg key)) as [response|]; [|done].
  rewrite (dict_get_middle before after server est Hfresh).
  rewrite (dict_set_middle before after server est _ Hfresh).
  rewrite (fmul_comm f0_3), (fmul_comm f0_7).
  destruct (j_status response) as [status|]; [|done].
  case_decide; [|done]. destruct (j_val response); done.
Qed.

Lemma get_picks_least_loaded_witness :
  (NoDup (response_times (new_client ["a"; "b"; "c"; "d"])).*1 /\
   Forall (fun p => p.2 = f0_0)
          (response_times (new_client ["a"; "b"; "c"; "d"])) /\
   (response_times (new_client ["a"; "b"; "c"; "d"])).*1 =
     conns (new_client ["a"; "b"; "c"; "d"]) /\
   conn_info <$> conns (new_client ["a"; "b"; "c"; "d"]) =
     ["a"; "b"; "c"; "d"]) /\
  exists before server est after,
    response_times busy_client = (before ++ (server, est) :: after)%list /\
    Forall (fun p => flt est p.2 = true) before /\
    Forall (fun p => flt p.2 est = false) after /\
    _get_least_loaded_server busy_client = Ret server /\
    match answering server (get_msg "k") with
    | None =>
        get answering (S754_finite false 4503599627370496 (-53)) busy_client "k"
        = (busy_client, Raise AssertionError)
    | Some response =>
        response_times
          (get answering (S754_finite false 4503599627370496 (-53))
               busy_client "k").1 =
          (before
           ++ (server,
               fadd (fmul f0_3 (S754_finite false 4503599627370496 (-53)))
                    (fmul f0_7 est)) :: after)%list
    end.
Proof.
  apply (get_picks_least_loaded answering
           (S754_finite false 4503599627370496 (-53)) busy_client "k"
           ["a"; "b"; "c"; "d"]).
  - vm_compute. repeat constructor; set_solver.
  - vm_compute. repeat constructor.
  - discriminate.
Defined.

(** The read goes to "b", the first of the two idle replicas, and its
    estimate becomes 0.3 * 0.5, the double 5404319552844595 * 2^-55. *)
Example busy_client_reads_from_b :
  _get_least_loaded_server busy_client = Ret (mkConn 1 "b") /\
  get answering (S754_finite false 4503599627370496 (-53)) busy_client "k" =
    (mkClient (conns busy_client)
       [ (mkConn 0 "a", S754_finite false 4503599627370496 (-53));
         (mkConn 1 "b", S754_finite false 5404319552844595 (-55));
         (mkConn 2 "c", f0_0);
         (mkConn 3 "d", S754_finite false 4503599627370496 (-54)) ],
     Ret (true, Some "0")).
Proof. vm_compute. done. Qed.

(** The first read of a new client goes to "a": all estimates are equal. *)
Example new_client_reads_from_a :
  _get_least_loaded_server (new_client ["a"; "b"; "c"; "d"]) =
  Ret (mkConn 0 "a").
Proof. vm_compute. done. Qed.

(** ** One key at a time *)

(** What a replica sends on while it handles a message: nothing, or one
    message about the same key, a QUERY for a GET or a QUERY, and for a
    SET the SET itself, stamped by the head. *)
Lemma process_req_sends {W : Type}
    (send : JsonMessage -> W -> W * result JsonMessage)
    (self : CraqServer) (msg : JsonMessage) (w : W) :
  (_process_req send self msg w).1.2 = w \/
  exists m,
    (_process_req send self msg w).1.2 = (send m w).1 /\
    j_key m = j_key msg /\
    (j_type msg <> Some "SET" -> j_type m = Some "QUERY") /\
    (j_type msg = Some "SET" ->
     j_type m = Some "SET" /\ j_val m = j_val msg /\
     (is_Some (prev self) -> m = msg)).
Proof.
  destruct (decide (j_type msg = Some "SET")) as [Hs|Hns].
  - unfold _process_req. rewrite Hs. simpl.
    destruct (mkKVSetRequest msg) as [req|e] eqn:Hreq; [|by left].
    assert (Hj : set_json req = msg).
    { unfold mkKVSetRequest in Hreq.
      destruct (j_key msg), (j_val msg); try done. by injection Hreq as <-. }
    destruct (stamp_version self req) as [req'|e] eqn:Hst.
    + destruct (next self) as [n|] eqn:Hn.
      * right. exists (set_json req').
        rewrite (_set_forward send self req req' w n Hn Hst). simpl.
        destruct (stamp_version_fields _ _ _ Hst) as (_ & _ & Hj').
        rewrite Hj in Hj'. split.
        { by destruct (send (set_json req') w) as [w' [resp|e]]. }
        rewrite Hj'. split; [done|]. split; [done|]. intros _.
        split; [done|]. split; [done|]. intros [p Hp].
        unfold stamp_version in Hst. rewrite Hp in Hst.
        injection Hst as <-. rewrite <- Hj', Hj. done.
      * left. by rewrite (_set_tail send self req w Hn), Hst.
    + left. by rewrite (_set_stamp_fails send self req w e Hst).
  - unfold _process_req.
    destruct (decide (j_type msg = Some "GET")) as [Hg|_].
    { unfold mkKVGetRequest. destruct (j_key msg) as [k|] eqn:Hk; [|by left].
      unfold _get. simpl. destruct (dirty_versions _ _) as [d|].
      - right. exists (query_msg k). split; [|done].
        destruct (send (query_msg k) w) as [w' [resp|e]]; [|done].
        destruct (d !! j_ver resp); [done|].
        by destruct (store _ !! _) as [[cv val]|].
      - left. by destruct (store _ !! _) as [[cv val]|]. }
    rewrite decide_False by done.
    destruct (decide (j_type msg = Some "QUERY")) as [Hq|_]; [|by left].
    unfold mkKVQueryRequest. destruct (j_key msg) as [k|] eqn:Hk; [|by left].
    unfold _query. simpl. destruct (next self).
    + right. exists msg. split; [|done]. by destruct (send msg w) as [w' r].
    + left. by destruct (store _ !! _) as [[cv val]|].
Qed.

Lemma not_write_sent (key : string) (msg m : JsonMessage) :
  not_write key msg ->
  j_key m = j_key msg ->
  (j_type msg <> Some "SET" -> j_type m = Some "QUERY") ->
  not_write key m.
Proof.
  intros [Hty|Hk] Hkey Hq.
  - left. rewrite (Hq Hty). done.
  - right. by rewrite Hkey.
Qed.

(** A message that is not a write of the key leaves the entries of the
    key as they are on the replica that handles it. *)
Lemma process_req_other_key {W : Type}
    (send : JsonMessage -> W -> W * result JsonMessage)
    (self : CraqServer) (msg : JsonMessage) (w : W) (key : string) :
  not_write key msg ->
  same_entries key self (_process_req send self msg w).1.1.
Proof.
  intros Hnw. destruct (decide (j_type msg = Some "SET")) as [Hs|Hns]; cycle 1.
  { destruct (process_req_not_set send self msg w Hns) as [(Hst & Ht & _) _].
    unfold same_entries. by rewrite Hst, Ht. }
  destruct Hnw as [Hty|Hk]; [done|].
  unfold _process_req. rewrite Hs. simpl.
  destruct (mkKVSetRequest msg) as [req|e] eqn:Hreq; [|done].
  assert (Hne : set_key req <> key).
  { unfold mkKVSetRequest in Hreq.
    destruct (j_key msg) as [k0|], (j_val msg); try done.
    injection Hreq as <-. simpl. congruence. }
  destruct (stamp_version self req) as [req'|e] eqn:Hst; cycle 1.
  { by rewrite (_set_stamp_fails send self req w e Hst). }
  destruct (next self) as [n|] eqn:Hn.
  - rewrite (_set_forward send self req req' w n Hn Hst). simpl.
    destruct (send (set_json req') w) as [w' [resp|e]]; split; simpl;
      by rewrite ?lookup_insert_ne.
  - rewrite (_set_tail send self req w Hn), Hst. split; simpl;
      by rewrite ?lookup_insert_ne.
Qed.

Lemma same_entries_trans (key : string) (c1 c2 c3 : list CraqServer) :
  Forall2 (same_entries key) c1 c2 ->
  Forall2 (same_entries key) c2 c3 ->
  Forall2 (same_entries key) c1 c3.
Proof.
  intros H12. revert c3.
  induction H12 as [|s1 s2 t1 t2 [Hs Ht] _ IH]; intros c3 H23.
  - by inversion H23.
  - inversion H23 as [|? s3 ? t3 [Hs' Ht'] Hrest]; subst.
    constructor; [|by apply IH]. split; congruence.
Qed.

Lemma same_entries_refl (key : string) (chain : list CraqServer) :
  Forall2 (same_entries key) chain chain.
Proof. apply Forall2_same_length_lookup_2; [done|]. by intros; simplify_eq. Qed.

Lemma stub_send_other_key
    (unreachable_peer : JsonMessage -> result JsonMessage)
    (remote_failure : exn -> result JsonMessage)
    (key : string) (rest : list CraqServer) : forall m : JsonMessage,
  not_write key m ->
  Forall2 (same_entries key) rest
          (stub_send unreachable_peer remote_failure rest m).1.
Proof.
  induction rest as [|peer rest' IH]; intros m Hnw; [constructor|].
  cbn [stub_send].
  pose proof (process_req_other_key
                (fun m' w => stub_send unreachable_peer remote_failure w m')
                peer m rest' key Hnw) as Hpeer.
  pose proof (process_req_sends
                (fun m' w => stub_send unreachable_peer remote_failure w m')
                peer m rest') as Hw.
  destruct (_process_req _ peer m rest') as [[peer' rest''] r].
  cbn [fst snd] in *. constructor; [done|].
  destruct Hw as [->|(m' & -> & Hk & Hq & _)]; [apply same_entries_refl|].
  apply IH. by apply (not_write_sent key m).
Qed.

Lemma client_req_other_key
    (unreachable_peer : JsonMessage -> result JsonMessage)
    (remote_failure : exn -> result JsonMessage)
    (key : string) (chain : list CraqServer) (i : nat) (msg : JsonMessage) :
  not_write key msg ->
  Forall2 (same_entries key) chain
          (client_req unreachable_peer remote_failure chain i msg).1.
Proof.
  intros Hnw. unfold client_req, serve.
  destruct (drop i chain) as [|self rest] eqn:Hdrop; [apply same_entries_refl|].
  pose proof (process_req_other_key
                (fun m w => stub_send unreachable_peer remote_failure w m)
                self msg rest key Hnw) as Hself.
  pose proof (process_req_sends
                (fun m w => stub_send unreachable_peer remote_failure w m)
                self msg rest) as Hw.
  destruct (_process_req _ self msg rest) as [[self' rest'] r].
  cbn [fst snd] in *.
  rewrite <- (take_drop i chain) at 1. rewrite Hdrop.
  apply Forall2_app; [apply same_entries_refl|]. constructor; [done|].
  destruct Hw as [->|(m' & -> & Hk & Hq & _)]; [apply same_entries_refl|].
  apply stub_send_other_key. by apply (not_write_sent key msg).
Qed.

Lemma run_other_key
    (unreachable_peer : JsonMessage -> result JsonMessage)
    (remote_failure : exn -> result JsonMessage)
    (key : string) (history : list (nat * JsonMessage)) :
  forall chain : list CraqServer,
  Forall (fun step => not_write key step.2) history ->
  Forall2 (same_entries key) chain
          (run unreachable_peer remote_failure chain history).
Proof.
  induction history as [|[i msg] history' IH]; intros chain Hall.
  - apply same_entries_refl.
  - apply Forall_cons in Hall as [Hmsg Hall]. simpl.
    eapply same_entries_trans; [|by apply IH].
    by apply client_req_other_key.
Qed.

(** X1. A message that is not a write of key [k] (a GET, a QUERY, a
    message of unknown type, or a SET of another key) leaves the clean
    entry and the dirty map of [k] as they are, on the replica that
    handles it and on every replica of the chain it travels along. *)
Theorem other_keys_untouched {W : Type}
    (send : JsonMessage -> W -> W * result JsonMessage)
    (self : CraqServer) (w : W)
    (unreachable_peer : JsonMessage -> result JsonMessage)
    (remote_failure : exn -> result JsonMessage)
    (chain : list CraqServer) (i : nat) (msg : JsonMessage) (k : string) :
  not_write k msg ->
  same_entries k self (_process_req send self msg w).1.1 /\
  Forall2 (same_entries k) chain
          (client_req unreachable_peer remote_failure chain i msg).1.
Proof.
  intros Hnw. split.
  - by apply process_req_other_key.
  - by apply client_req_other_key.
Qed.

Lemma other_keys_untouched_witness :
  same_entries "k" dirty_replica
    (_process_req ok_stub dirty_replica (set_msg "j" "v") []).1.1 /\
  Forall2 (same_entries "k") written_cluster
    (client_req (fun _ => Raise TransportError) (fun _ => Raise TransportError)
                written_cluster 0 (set_msg "j" "v")).1.
Proof.
  apply (other_keys_untouched ok_stub dirty_replica []
           (fun _ => Raise TransportError) (fun _ => Raise TransportError)
           written_cluster 0 (set_msg "j" "v") "k").
  right. discriminate.
Defined.

(** ** A key never written *)

Lemma serve_get_absent
    (unreachable_peer : JsonMessage -> result JsonMessage)
    (remote_failure : exn -> result JsonMessage)
    (key : string) (self : CraqServer) (rest : list CraqServer) :
  store self !! key = None ->
  temp_store self !! key = None ->
  serve unreachable_peer remote_failure self rest (get_msg key) =
    (with_lock self key, rest, Ret (status_msg "Key not found")).
Proof.
  intros Hst Hts. unfold serve, _process_req, _get. simpl.
  unfold dirty_versions. simpl. by rewrite Hts, Hst.
Qed.

(** X2. On the cluster, as long as no SET of key [k] has been sent to
    any replica, whatever else has, a GET of [k] sent to any of the four
    replicas answers "Key not found". *)
Theorem never_written_key_not_found
    (unreachable_peer : JsonMessage -> result JsonMessage)
    (remote_failure : exn -> result JsonMessage)
    (history : list (nat * JsonMessage)) (k : string) (i : nat) :
  Forall (fun step => not_write k step.2) history ->
  (i < 4)%nat ->
  (client_req unreachable_peer remote_failure
     (run unreachable_peer remote_failure CraqCluster history)
     i (get_msg k)).2 = Some (Ret (status_msg "Key not found")).
Proof.
  intros Hall Hi.
  pose proof (run_other_key unreachable_peer remote_failure k history
                CraqCluster Hall) as Hsame.
  generalize dependent (run unreachable_peer remote_failure CraqCluster
                            history).
  intros final Hsame.
  assert (Hnone : Forall (fun s => store s !! k = None /\
                                   temp_store s !! k = None) final).
  { unfold CraqCluster in Hsame.
    repeat match goal with
           | H : Forall2 _ (_ :: _) _ |- _ =>
               apply Forall2_cons_inv_l in H as (? & ? & [? ?] & H & ->)
           | H : Forall2 _ [] _ |- _ => apply Forall2_nil_inv_l in H as ->
           end.
    repeat constructor; done. }
  assert (Hlen : length final = 4%nat).
  { apply Forall2_length in Hsame. by rewrite <- Hsame. }
  unfold client_req.
  destruct (drop i final) as [|self rest] eqn:Hdrop.
  { apply (f_equal length) in Hdrop. rewrite length_drop in Hdrop.
    simpl in Hdrop. lia. }
  assert (Hself : store self !! k = None /\ temp_store self !! k = None).
  { apply (Forall_drop _ i) in Hnone. rewrite Hdrop in Hnone.
    by apply Forall_cons in Hnone as [? _]. }
  destruct Hself as [Hst Hts].
  by rewrite (serve_get_absent _ _ k self rest Hst Hts).
Qed.

Lemma never_written_key_not_found_witness :
  (client_req (fun _ => Raise TransportError) (fun _ => Raise TransportError)
     (run (fun _ => Raise TransportError) (fun _ => Raise TransportError)
          CraqCluster
          [(0%nat, set_msg "k" "0"); (2%nat, get_msg "absent");
           (1%nat, query_msg "k")])
     3 (get_msg "absent")).2 = Some (Ret (status_msg "Key not found")).
Proof.
  apply (never_written_key_not_found (fun _ => Raise TransportError)
           (fun _ => Raise TransportError)
           [(0%nat, set_msg "k" "0"); (2%nat, get_msg "absent");
            (1%nat, query_msg "k")] "absent" 3).
  - constructor; [by right|]. constructor; [by left|].
    constructor; [by left|]. constructor.
  - lia.
Defined.

(** ** Requests that are not served *)

(** X3. A message whose type is none of GET, SET and QUERY is answered
    "Unexpected type"; a GET, SET or QUERY without ["key"], and a SET
    without ["val"], fails the request's assertion.  In all these cases
    the replica is left exactly as it was, lock table included, and
    nothing is sent. *)
Theorem unserved_requests_change_nothing {W : Type}
    (send : JsonMessage -> W -> W * result JsonMessage)
    (self : CraqServer) (msg : JsonMessage) (w : W) :
  (j_type msg <> Some "GET" -> j_type msg <> Some "SET" ->
   j_type msg <> Some "QUERY" ->
   _process_req send self msg w =
     (self, w, Ret (status_msg "Unexpected type"))) /\
  (j_type msg = Some "GET" \/ j_type msg = Some "SET" \/
   j_type msg = Some "QUERY" ->
   j_key msg = None \/ (j_type msg = Some "SET" /\ j_val msg = None) ->
   _process_req send self msg w = (self, w, Raise AssertionError)).
Proof.
  split.
  - intros Hg Hs Hq. unfold _process_req. by rewrite !decide_False.
  - intros Hty Hbad. unfold _process_req.
    unfold mkKVGetRequest, mkKVSetRequest, mkKVQueryRequest.
    destruct Hty as [Hty|[Hty|Hty]]; rewrite Hty; simpl;
      destruct Hbad as [Hk|[Hs Hv]]; try congruence;
      rewrite ?Hk, ?Hv; try done.
    by destruct (j_key msg).
Qed.

(** ** Nothing is forgotten *)

(** X4. Whatever the message and whatever the forward does, a replica
    never drops a lock, a clean entry or the dirty map of a key: the
    keys of [locks], [store] and [temp_store] only grow.  A request that
    is served leaves its key locked. *)
Theorem keys_only_grow {W : Type}
    (send : JsonMessage -> W -> W * result JsonMessage)
    (self : CraqServer) (msg : JsonMessage) (w : W) :
  let self' := (_process_req send self msg w).1.1 in
  locks self ⊆ locks self' /\
  dom (store self) ⊆ dom (store self') /\
  dom (temp_store self) ⊆ dom (temp_store self') /\
  forall k,
    j_key msg = Some k ->
    j_type msg = Some "GET" \/ j_type msg = Some "QUERY" \/
    (j_type msg = Some "SET" /\ is_Some (j_val msg)) ->
    k ∈ locks self'.
Proof.
  unfold _process_req.
  destruct (decide (j_type msg = Some "GET")) as [Hg|Hng].
  { unfold mkKVGetRequest. destruct (j_key msg) as [k0|]; simpl.
    - rewrite _get_stores. simpl. split_and!; [set_solver|done|done|].
      intros k [= <-] _. set_solver.
    - split_and!; [done..|]. intros k Hk. discriminate Hk. }
  destruct (decide (j_type msg = Some "SET")) as [Hs|Hns].
  { unfold mkKVSetRequest.
    destruct (j_key msg) as [k0|]; [|by split_and!; [done..|intros k Hk]].
    destruct (j_val msg) as [v0|]; simpl.
    2:{ split_and!; [done..|]. intros k _ [H|[H|[_ [x Hx]]]]; congruence. }
    set (req := {| set_key := k0; set_val := v0; set_json := msg |}).
    destruct (stamp_version self req) as [req'|e] eqn:Hst.
    - destruct (next self) as [n|] eqn:Hn.
      + rewrite (_set_forward send self req req' w n Hn Hst). simpl.
        destruct (send (set_json req') w) as [w' [resp|e]]; simpl;
          (split_and!;
           [set_solver
           |rewrite ?dom_insert_L; set_solver
           |rewrite ?dom_insert_L; set_solver
           |intros k [= <-] _; set_solver]).
      + rewrite (_set_tail send self req w Hn), Hst. simpl.
        split_and!; [set_solver|rewrite dom_insert_L; set_solver|done|].
        intros k [= <-] _. set_solver.
    - rewrite (_set_stamp_fails send self req w e Hst). simpl.
      split_and!; [set_solver|done|done|]. intros k [= <-] _. set_solver. }
  destruct (decide (j_type msg = Some "QUERY")) as [Hq|Hnq].
  { unfold mkKVQueryRequest. destruct (j_key msg) as [k0|]; simpl.
    - rewrite _query_stores. simpl. split_and!; [set_solver|done|done|].
      intros k [= <-] _. set_solver.
    - split_and!; [done..|]. intros k Hk. discriminate Hk. }
  simpl. split_and!; [done..|]. intros k _ [H|[H|[H _]]]; congruence.
Qed.

(** ** The version query along the chain *)

Lemma process_req_query {W : Type}
    (send : JsonMessage -> W -> W * result JsonMessage)
    (self : CraqServer) (m : JsonMessage) (w : W) (key : string) :
  j_type m = Some "QUERY" -> j_key m = Some key ->
  _process_req send self m w =
    _query send self {| query_key := key; query_json := m |} w.
Proof.
  intros Hty Hk. unfold _process_req, mkKVQueryRequest.
  rewrite Hty, Hk. done.
Qed.

Lemma serve_query_tail
    (unreachable_peer : JsonMessage -> result JsonMessage)
    (remote_failure : exn -> result JsonMessage)
    (key x : string) (ver : pyver) (d : CraqServer) (rest : list CraqServer) :
  forall (self : CraqServer) (b : bool) (m : JsonMessage),
  linked_from b (self :: rest) ->
  last (self :: rest) = Some d ->
  store d !! key = Some (ver, x) ->
  j_type m = Some "QUERY" -> j_key m = Some key ->
  (serve unreachable_peer remote_failure self rest m).2 = Ret (ver_msg ver).
Proof.
  induction rest as [|peer rest' IH]; intros self b m Hl Hlast Hst Hty Hk;
    destruct Hl as (_ & Hnext & Hl);
    unfold serve; rewrite (process_req_query _ self m _ key Hty Hk);
    unfold _query; cbn [query_key query_json with_lock next store].
  - injection Hlast as ->.
    destruct (next d) as [n|]; [by destruct (proj1 Hnext)|].
    by rewrite Hst.
  - destruct (proj2 Hnext) as [n ->]; [done|].
    rewrite stub_send_cons. cbn zeta.
    rewrite last_cons_cons in Hlast.
    specialize (IH peer true m Hl Hlast Hst Hty Hk).
    destruct (serve _ _ peer rest' m) as [[peer' rest''] r].
    simpl in *. by subst r.
Qed.

(** X5. On a chain whose links are in place, a QUERY of a key for which
    the tail has a clean entry, sent to any replica, comes back with the
    version of that entry, whatever the other replicas hold. *)
Theorem query_returns_tail_version
    (unreachable_peer : JsonMessage -> result JsonMessage)
    (remote_failure : exn -> result JsonMessage)
    (chain : list CraqServer) (d : CraqServer) (k x : string) (ver : pyver)
    (i : nat) :
  linked chain ->
  last chain = Some d ->
  store d !! k = Some (ver, x) ->
  (i < length chain)%nat ->
  (client_req unreachable_peer remote_failure chain i (query_msg k)).2 =
    Some (Ret (ver_msg ver)).
Proof.
  intros [_ Hl] Hlast Hst Hi. unfold client_req.
  destruct (drop i chain) as [|self rest] eqn:Hdrop.
  { apply (f_equal length) in Hdrop. rewrite length_drop in Hdrop.
    simpl in Hdrop. lia. }
  destruct (linked_from_drop i _ _ Hl) as [b Hlb]. rewrite Hdrop in Hlb.
  assert (Hlast' : last (self :: rest) = Some d).
  { rewrite <- (take_drop i chain), Hdrop, last_app in Hlast.
    destruct (last (self :: rest)) eqn:E; [done|].
    by apply last_None in E. }
  pose proof (serve_query_tail unreachable_peer remote_failure k x ver d rest
                self b (query_msg k) Hlb Hlast' Hst eq_refl eq_refl) as Hq.
  destruct (serve _ _ self rest (query_msg k)) as [[self' rest'] r].
  simpl in *. by subst r.
Qed.

Lemma query_returns_tail_version_witness :
  (client_req (fun _ => Raise TransportError) (fun _ => Raise TransportError)
              written_cluster 0 (query_msg "k")).2 =
  Some (Ret (ver_msg (Some 1))).
Proof.
  assert (Hlinked : linked written_cluster).
  { split; [done|]. unfold written_cluster.
    apply (keeps_shape_linked_from CraqCluster);
      [apply client_req_keeps_shape|apply CraqCluster_linked]. }
  apply (query_returns_tail_version (fun _ => Raise TransportError)
           (fun _ => Raise TransportError) written_cluster
           (clean_insert (with_lock (new_server "d" None (Some "c") "d") "k")
                         "k" (Some 1) "0")
           "k" "0" (Some 1) 0 Hlinked).
  - vm_compute. reflexivity.
  - vm_compute. reflexivity.
  - vm_compute. lia.
Defined.

(** ** One write after the other *)

(** A SET that goes down a chain on which no replica holds a dirty
    version of the key leaves none behind. *)
Lemma serve_set_clean
    (unreachable_peer : JsonMessage -> result JsonMessage)
    (remote_failure : exn -> result JsonMessage)
    (key v : string) (rest : list CraqServer) :
  forall (self : CraqServer) (m : JsonMessage) (b : bool) (req' : KVSetRequest),
  linked_from b (self :: rest) ->
  Forall (fun s => dirty_versions s key = None) (self :: rest) ->
  j_type m = Some "SET" -> j_key m = Some key -> j_val m = Some v ->
  stamp_version self {| set_key := key; set_val := v; set_json := m |} =
    Ret req' ->
  let out := serve unreachable_peer remote_failure self rest m in
  Forall (fun s => dirty_versions s key = None) (out.1.1 :: out.1.2).
Proof.
  induction rest as [|peer rest' IH];
    intros self m b req' Hl Hnd Hty Hk Hv Hst;
    unfold serve, _process_req; rewrite Hty; simpl;
    unfold mkKVSetRequest; rewrite Hk, Hv;
    destruct Hl as (_ & Hnext & Hl);
    apply Forall_cons in Hnd as [Hself Hnd].
  - assert (Hn : next self = None).
    { destruct (next self); [|done]. by destruct (proj1 Hnext). }
    rewrite (_set_tail _ self _ [] Hn), Hst. simpl. by constructor.
  - destruct (proj2 Hnext) as [n Hn]; [done|].
    rewrite (_set_forward _ self _ req' (peer :: rest') n Hn Hst).
    cbn zeta. cbn [set_key set_val].
    destruct (stamp_version_fields _ _ _ Hst) as (Hk' & Hv' & Hj).
    cbn [set_key set_val set_json] in Hk', Hv', Hj.
    rewrite stub_send_cons. cbn zeta.
    assert (Hpeer : is_Some (prev peer)) by (by apply Hl).
    destruct Hpeer as [p Hp].
    pose proof (IH peer (set_json req') true
                  {| set_key := key; set_val := v; set_json := set_json req' |}
                  Hl Hnd) as Hc.
    pose proof (serve_set unreachable_peer remote_failure key v rest' peer
                  (set_json req') true
                  {| set_key := key; set_val := v; set_json := set_json req' |}
                  Hl) as Hok.
    assert (Hfields : j_type (set_json req') = Some "SET" /\
                      j_key (set_json req') = Some key /\
                      j_val (set_json req') = Some v) by (by rewrite Hj).
    destruct Hfields as (Ht' & Hkk & Hvv).
    assert (Hstp : stamp_version peer
                     {| set_key := key; set_val := v;
                        set_json := set_json req' |} =
                   Ret {| set_key := key; set_val := v;
                          set_json := set_json req' |}).
    { unfold stamp_version. by rewrite Hp. }
    specialize (Hc Ht' Hkk Hvv Hstp).
    destruct Hok as [Hr _]; [|done..|].
    { eapply Forall_impl; [exact Hnd|]. by intros s Hs _. }
    cbn zeta in Hr, Hc. rewrite Hr. cbn [fst snd].
    constructor; [|exact Hc].
    pose proof (dirty_versions_default self key) as Hdef.
    rewrite Hself in Hdef. unfold dirty_versions. simpl.
    rewrite lookup_insert_eq, Hdef, delete_empty. by rewrite decide_True.
Qed.

(** One client write on a chain where every replica is at version [n]
    of the key: the head answers OK and every replica is at version
    [n + 1], holding the value written. *)
Lemma write_step
    (unreachable_peer : JsonMessage -> result JsonMessage)
    (remote_failure : exn -> result JsonMessage)
    (chain : list CraqServer) (k v : string) (n : Z) :
  linked chain ->
  Forall (at_version k n) chain ->
  let out := client_req unreachable_peer remote_failure chain 0 (set_msg k v) in
  out.2 = Some (Ret (status_msg "OK")) /\
  linked out.1 /\
  Forall (fun s => at_version k (n + 1) s /\
                   store s !! k = Some (Some (n + 1), v)) out.1.
Proof.
  intros [Hne Hl] Hat. destruct chain as [|head rest]; [done|]. clear Hne.
  rewrite client_req_head. cbn zeta. cbn [fst snd].
  assert (Hdirty : Forall (fun s => dirty_versions s k = None) (head :: rest)).
  { eapply Forall_impl; [exact Hat|]. by intros s [Hs _]. }
  assert (Hst : stamp_version head
                  {| set_key := k; set_val := v; set_json := set_msg k v |} =
                Ret (with_version
                       {| set_key := k; set_val := v; set_json := set_msg k v |}
                       (Some (n + 1)))).
  { pose proof Hl as (Hprev & _ & _).
    apply Forall_cons in Hat as [[Hd Hcv] _].
    assert (Hp : prev head = None).
    { destruct (prev head) as [p|] eqn:E; [|done].
      by assert (false = true) by (apply Hprev; eauto). }
    unfold stamp_version, current_version. simpl.
    rewrite Hp, Hd. destruct (store head !! k) as [[ver x]|]; by subst. }
  assert (Hnd : no_tail_dirty k (head :: rest)).
  { eapply Forall_impl; [exact Hdirty|]. by intros s Hs _. }
  pose proof (serve_set unreachable_peer remote_failure k v rest head
                (set_msg k v) false _ Hl Hnd eq_refl eq_refl eq_refl Hst)
    as [Hr Hc].
  pose proof (serve_set_clean unreachable_peer remote_failure k v rest head
                (set_msg k v) false _ Hl Hdirty eq_refl eq_refl eq_refl Hst)
    as Hclean.
  pose proof (serve_keeps_shape unreachable_peer remote_failure head rest
                (set_msg k v)) as Hshape.
  cbn zeta in Hr, Hc, Hclean. split; [by rewrite Hr|]. split.
  - split; [done|]. by apply (keeps_shape_linked_from _ _ Hshape).
  - apply Forall_forall. intros s Hs.
    rewrite Forall_forall in Hc, Hclean.
    destruct (Hc s Hs) as [Hstore _]. specialize (Hclean s Hs).
    cbn [version with_version set_json set_version j_ver] in Hstore.
    split; [|done]. split; [done|]. by rewrite Hstore.
Qed.

Lemma run_app
    (unreachable_peer : JsonMessage -> result JsonMessage)
    (remote_failure : exn -> result JsonMessage)
    (h1 h2 : list (nat * JsonMessage)) : forall chain : list CraqServer,
  run unreachable_peer remote_failure chain (h1 ++ h2) =
  run unreachable_peer remote_failure
      (run unreachable_peer remote_failure chain h1) h2.
Proof.
  induction h1 as [|[i msg] h1 IH]; intros chain; [done|]. simpl. apply IH.
Qed.

Lemma run_writes
    (unreachable_peer : JsonMessage -> result JsonMessage)
    (remote_failure : exn -> result JsonMessage)
    (k : string) (vals : list string) : forall (chain : list CraqServer) (n : Z),
  linked chain ->
  Forall (at_version k n) chain ->
  linked (run unreachable_peer remote_failure chain (writes k vals)) /\
  Forall (at_version k (n + Z.of_nat (length vals)))
         (run unreachable_peer remote_failure chain (writes k vals)).
Proof.
  induction vals as [|v vals IH]; intros chain n Hl Hat.
  - simpl. by rewrite Z.add_0_r.
  - cbn [writes fmap list_fmap run]. fold (writes k vals).
    destruct (write_step unreachable_peer remote_failure chain k v n Hl Hat)
      as (_ & Hl' & Hat').
    destruct (IH _ (n + 1) Hl') as [Hl'' Hat''].
    { eapply Forall_impl; [exact Hat'|]. by intros s [Hs _]. }
    split; [done|].
    replace (n + Z.of_nat (length (v :: vals)))
      with (n + 1 + Z.of_nat (length vals)) by (simpl length; lia).
    done.
Qed.

(** X6. On a chain whose links are in place and whose replicas all sit
    at version [n] of key [k] with no dirty version, after a client has
    written the values [vals] and then [v] to [k], one write after the
    other, every replica holds [v] clean at version [n] plus the number
    of writes, and none holds a dirty version of [k]. *)
Theorem successive_writes
    (unreachable_peer : JsonMessage -> result JsonMessage)
    (remote_failure : exn -> result JsonMessage)
    (chain : list CraqServer) (k : string) (vals : list string) (v : string)
    (n : Z) :
  linked chain ->
  Forall (at_version k n) chain ->
  Forall (fun s =>
            store s !! k = Some (Some (n + Z.of_nat (length vals) + 1), v) /\
            dirty_versions s k = None)
         (run unreachable_peer remote_failure chain (writes k (vals ++ [v]))).
Proof.
  intros Hl Hat. unfold writes. rewrite fmap_app, run_app.
  fold (writes k vals).
  destruct (run_writes unreachable_peer remote_failure k vals chain n Hl Hat)
    as [Hl' Hat'].
  destruct (write_step unreachable_peer remote_failure _ k v _ Hl' Hat')
    as (_ & _ & Hfinal).
  cbn [fmap list_fmap run]. cbn zeta in Hfinal.
  eapply Forall_impl; [exact Hfinal|]. by intros s [[Hd _] Hs].
Qed.

Lemma CraqCluster_at_version_0 (key : string) :
  Forall (at_version key 0) CraqCluster.
Proof. repeat constructor. Qed.

Lemma successive_writes_witness :
  Forall (fun s =>
            store s !! "k" =
              Some (Some (0 + Z.of_nat (length ["0"]) + 1), "1") /\
            dirty_versions s "k" = None)
         (run (fun _ => Raise TransportError) (fun _ => Raise TransportError)
              CraqCluster (writes "k" (["0"] ++ ["1"]))).
Proof.
  apply (successive_writes (fun _ => Raise TransportError)
           (fun _ => Raise TransportError) CraqCluster "k" ["0"] "1" 0).
  - exact CraqCluster_linked.
  - exact (CraqCluster_at_version_0 "k").
Defined.

(** ** The head only stores integers *)

Lemma default_dirty_ints (self : CraqServer) (key : string) (v : pyver) :
  int_versions self key ->
  is_Some (default ∅ (temp_store self !! key) !! v) -> is_Some v.
Proof.
  intros [Hd _] Hv. destruct (temp_store self !! key) as [d|] eqn:E; simpl in Hv.
  - by apply (Hd d v).
  - destruct Hv as [x Hx]. by rewrite lookup_empty in Hx.
Qed.

Lemma head_process_req_all_int {W : Type}
    (send : JsonMessage -> W -> W * result JsonMessage)
    (self : CraqServer) (msg : JsonMessage) (w : W) :
  prev self = None ->
  all_int self ->
  all_int (_process_req send self msg w).1.1 /\
  forall req,
    mkKVSetRequest msg = Ret req ->
    exists c, current_version self (set_key req) = Ret (Some c) /\
              stamp_version self req = Ret (with_version req (Some (c + 1))).
Proof.
  intros Hp Hint.
  assert (Hstamp : forall req,
             exists c, current_version self (set_key req) = Ret (Some c) /\
                       stamp_version self req =
                         Ret (with_version req (Some (c + 1)))).
  { intros req.
    destruct (current_version_ints self (set_key req) (Hint _)) as [c Hc].
    exists c. split; [done|]. unfold stamp_version. by rewrite Hp, Hc. }
  split; [|by intros req _].
  destruct (decide (j_type msg = Some "SET")) as [Hs|Hns]; cycle 1.
  { destruct (process_req_not_set send self msg w Hns) as [(Hst & Ht & _) _].
    intros key. unfold int_versions. rewrite Hst, Ht. apply Hint. }
  unfold _process_req. rewrite Hs. simpl.
  destruct (mkKVSetRequest msg) as [req|e]; [|done].
  destruct (Hstamp req) as (c & _ & Hst).
  set (k := set_key req) in *.
  assert (Hins : forall (ts : gmap string (gmap pyver string))
                        (st : gmap string (pyver * string)) self',
             temp_store self' = ts -> store self' = st ->
             (forall key, key <> k -> ts !! key = temp_store self !! key) ->
             (forall key, key <> k -> st !! key = store self !! key) ->
             (forall d v, ts !! k = Some d -> is_Some (d !! v) -> is_Some v) ->
             (forall cv val, st !! k = Some (cv, val) -> is_Some cv) ->
             all_int self').
  { intros ts st self' <- <- Hts Hstore Hd Hc key.
    destruct (decide (key = k)) as [->|Hne]; [by split|].
    unfold int_versions. rewrite (Hts key Hne), (Hstore key Hne). apply Hint. }
  destruct (next self) as [n|] eqn:Hn.
  - rewrite (_set_forward send self req _ w n Hn Hst). simpl.
    destruct (send _ w) as [w' [resp|e]]; simpl.
    + eapply Hins; [done|done|..]; simpl.
      * intros key Hne. by rewrite lookup_insert_ne.
      * intros key Hne. by rewrite lookup_insert_ne.
      * intros d v. rewrite lookup_insert_eq. intros [= <-] [x Hx].
        apply lookup_delete_Some in Hx as [_ Hx].
        apply (default_dirty_ints self k); [apply Hint|eauto].
      * intros cv val. rewrite lookup_insert_eq. intros [= <- _]. eauto.
    + eapply Hins; [done|done|..]; simpl.
      * intros key Hne. by rewrite lookup_insert_ne.
      * done.
      * intros d v. rewrite lookup_insert_eq. intros [= <-] [x Hx].
        apply lookup_insert_Some in Hx as [[<- _]|[_ Hx]]; [eauto|].
        apply (default_dirty_ints self k); [apply Hint|eauto].
      * intros cv val. apply (Hint k).
  - rewrite (_set_tail send self req w Hn), Hst. simpl.
    eapply Hins; [done|done|..]; simpl.
    + done.
    + intros key Hne. by rewrite lookup_insert_ne.
    + intros d v. apply (Hint k).
    + intros cv val. rewrite lookup_insert_eq. intros [= <- _]. eauto.
Qed.

(** X7. A replica without predecessor that holds only integer versions
    keeps doing so whatever it is sent and whatever the forward does,
    and it always manages to stamp a SET: the version is
    [current_version + 1], never a [TypeError]. *)
Theorem head_versions_stay_integers {W : Type}
    (send : JsonMessage -> W -> W * result JsonMessage)
    (self : CraqServer) (msg : JsonMessage) (w : W) :
  prev self = None ->
  all_int self ->
  all_int (_process_req send self msg w).1.1 /\
  forall req,
    mkKVSetRequest msg = Ret req ->
    exists c, current_version self (set_key req) = Ret (Some c) /\
              stamp_version self req = Ret (with_version req (Some (c + 1))).
Proof. apply head_process_req_all_int. Qed.

Lemma new_server_all_int (nm : string) (nxt prv : option string) (tl : string) :
  all_int (new_server nm nxt prv tl).
Proof.
  intros key. split.
  - intros d v H. unfold new_server in H. cbn [temp_store] in H.
    by rewrite lookup_empty in H.
  - intros cv val H. unfold new_server in H. cbn [store] in H.
    by rewrite lookup_empty in H.
Qed.

Lemma head_versions_stay_integers_witness :
  all_int (_process_req failing_stub (new_server "a" (Some "b") None "d")
                        (set_msg "k" "a") []).1.1 /\
  forall req,
    mkKVSetRequest (set_msg "k" "a") = Ret req ->
    exists c,
      current_version (new_server "a" (Some "b") None "d") (set_key req) =
        Ret (Some c) /\
      stamp_version (new_server "a" (Some "b") None "d") req =
        Ret (with_version req (Some (c + 1))).
Proof.
  apply (head_versions_stay_integers failing_stub
           (new_server "a" (Some "b") None "d") (set_msg "k" "a") []).
  - reflexivity.
  - apply new_server_all_int.
Defined.

(** ** A write reaches every replica *)

Lemma set_at_head_commits
    (unreachable_peer : JsonMessage -> result JsonMessage)
    (remote_failure : exn -> result JsonMessage)
    (hd : CraqServer) (rest : list CraqServer) (k v : string) (c : Z) :
  linked (hd :: rest) ->
  no_tail_dirty k (hd :: rest) ->
  current_version hd k = Ret (Some c) ->
  let out :=
    client_req unreachable_peer remote_failure (hd :: rest) 0 (set_msg k v) in
  out.2 = Some (Ret (status_msg "OK")) /\
  length out.1 = length (hd :: rest) /\
  Forall (fun s => store s !! k = Some (Some (c + 1), v) /\
                   forall d, temp_store s !! k = Some d ->
                             d !! Some (c + 1) = None) out.1.
Proof.
  intros [_ Hl] Hnd Hcur. rewrite client_req_head. cbn zeta. cbn [fst snd].
  assert (Hp : prev hd = None).
  { destruct Hl as (Hprev & _). destruct (prev hd) as [p|] eqn:E; [|done].
    by assert (false = true) by (apply Hprev; eauto). }
  assert (Hst : stamp_version hd
                  {| set_key := k; set_val := v; set_json := set_msg k v |} =
                Ret (with_version
                       {| set_key := k; set_val := v; set_json := set_msg k v |}
                       (Some (c + 1)))).
  { unfold stamp_version. simpl. by rewrite Hp, Hcur. }
  pose proof (serve_set unreachable_peer remote_failure k v rest hd
                (set_msg k v) false _ Hl Hnd eq_refl eq_refl eq_refl Hst)
    as [Hr Hc].
  pose proof (serve_keeps_shape unreachable_peer remote_failure hd rest
                (set_msg k v)) as Hshape.
  cbn zeta in Hr, Hc. split; [by rewrite Hr|]. split.
  - symmetry. by apply keeps_shape_length.
  - exact Hc.
Qed.

(** X8. On a chain whose links are in place and whose tail holds no
    dirty version of [k], when the head reads [c] as the current version
    of [k], a client's SET(k, v) is answered OK, and afterwards every
    replica of the chain holds [v] clean at version [c + 1] and does not
    hold that version dirty. *)
Theorem write_reaches_every_replica
    (unreachable_peer : JsonMessage -> result JsonMessage)
    (remote_failure : exn -> result JsonMessage)
    (hd : CraqServer) (rest : list CraqServer) (k v : string) (c : Z) :
  linked (hd :: rest) ->
  no_tail_dirty k (hd :: rest) ->
  current_version hd k = Ret (Some c) ->
  let out :=
    client_req unreachable_peer remote_failure (hd :: rest) 0 (set_msg k v) in
  out.2 = Some (Ret (status_msg "OK")) /\
  length out.1 = length (hd :: rest) /\
  Forall (fun s => store s !! k = Some (Some (c + 1), v) /\
                   forall d, temp_store s !! k = Some d ->
                             d !! Some (c + 1) = None) out.1.
Proof. apply set_at_head_commits. Qed.

Lemma write_reaches_every_replica_witness :
  let out :=
    client_req (fun _ => Raise TransportError) (fun _ => Raise TransportError)
               stale_cluster 0 (set_msg "k" "b") in
  out.2 = Some (Ret (status_msg "OK")) /\
  length out.1 = length stale_cluster /\
  Forall (fun s => store s !! "k" = Some (Some (1 + 1), "b") /\
                   forall d, temp_store s !! "k" = Some d ->
                             d !! Some (1 + 1) = None) out.1.
Proof.
  apply (write_reaches_every_replica (fun _ => Raise TransportError)
           (fun _ => Raise TransportError) stale_head
           [ new_server "b" (Some "c") (Some "a") "d";
             new_server "c" (Some "d") (Some "b") "d";
             new_server "d" None (Some "c") "d" ] "k" "b" 1).
  - split; [done|]. simpl. repeat split; intros H; try done;
      try (by destruct H); eauto.
  - repeat constructor; intros H; try done.
  - vm_compute. reflexivity.
Defined.

(** ** The client and the cluster together *)

Lemma min_from_in (d : times) : forall (best : TcpClient) (best_val : pyfloat),
  min_from best best_val d ∈ best :: d.*1.
Proof.
  induction d as [|[k v] t IH]; intros best best_val; simpl; [left|].
  destruct (flt v best_val).
  - right. apply IH.
  - specialize (IH best best_val). set_solver.
Qed.

Lemma least_loaded_in_keys (self : CraqClient) (server : TcpClient) :
  _get_least_loaded_server self = Ret server ->
  server ∈ (response_times self).*1.
Proof.
  unfold _get_least_loaded_server.
  destruct (response_times self) as [|[k v] t]; [done|].
  intros [= <-]. apply min_from_in.
Qed.

Lemma dict_get_in (d : times) (k : TcpClient) :
  k ∈ d.*1 -> is_Some (dict_get d k).
Proof.
  induction d as [|[k' v'] t IH]; simpl; intros Hin; [by inversion Hin|].
  case_decide; [eauto|]. apply IH. set_solver.
Qed.

Lemma dict_set_keys (d : times) (k : TcpClient) (v : pyfloat) :
  k ∈ d.*1 -> (dict_set d k v).*1 = d.*1.
Proof.
  induction d as [|[k' v'] t IH]; simpl; intros Hin; [by inversion Hin|].
  case_decide; [by subst|]. simpl. f_equal. apply IH. set_solver.
Qed.

Lemma dict_get_set_ne (d : times) (k k' : TcpClient) (v : pyfloat) :
  k' <> k -> dict_get (dict_set d k v) k' = dict_get d k'.
Proof.
  intros Hne. induction d as [|[k0 v0] t IH]; simpl.
  - by rewrite decide_False.
  - destruct (decide (k0 = k)) as [->|Hk0]; simpl.
    + by rewrite !decide_False.
    + by rewrite IH.
Qed.

(** What [get] returns, given the response of the replica it picked. *)
Lemma get_result
    (send : TcpClient -> JsonMessage -> option JsonMessage)
    (elapsed_time : pyfloat) (self : CraqClient) (key : string)
    (server : TcpClient) (response : JsonMessage) :
  _get_least_loaded_server self = Ret server ->
  send server (get_msg key) = Some response ->
  (get send elapsed_time self key).2 =
    match j_status response with
    | None => Raise KeyError
    | Some status =>
        if decide (status = "OK") then
          match j_val response with
          | Some val => Ret (true, Some val)
          | None => Raise KeyError
          end
        else Ret (false, None)
    end.
Proof.
  intros Hleast Hsend. unfold get. rewrite Hleast, Hsend.
  destruct (dict_get_in _ _ (least_loaded_in_keys self server Hleast))
    as [previous ->].
  destruct (j_status response) as [status|]; [|done].
  case_decide; [|done]. by destruct (j_val response).
Qed.

(** X9. A client whose first connection reaches the head and whose
    connections all reach replicas of the chain: when [set(k, v)]
    returns [True], the [get(k)] that follows returns [(True, v)],
    whichever replica the response times make it pick. *)
Theorem client_set_then_get
    (unreachable_peer : JsonMessage -> result JsonMessage)
    (remote_failure : exn -> result JsonMessage)
    (chain : list CraqServer) (self : CraqClient) (k v : string)
    (elapsed_time : pyfloat) :
  linked chain ->
  no_tail_dirty k chain ->
  (exists head_conn others,
     conns self = head_conn :: others /\ conn_index head_conn = 0%nat) ->
  response_times self <> [] ->
  Forall (fun p => (conn_index p.1 < length chain)%nat) (response_times self) ->
  set (via_cluster unreachable_peer remote_failure chain) self k v = Ret true ->
  (get (via_cluster unreachable_peer remote_failure
          (client_req unreachable_peer remote_failure chain 0 (set_msg k v)).1)
       elapsed_time self k).2 = Ret (true, Some v).
Proof.
  intros Hl Hnd (head_conn & others & Hconns & Hidx) Hne Hreach Hset.
  unfold set in Hset. rewrite Hconns in Hset. unfold via_cluster in Hset.
  rewrite Hidx in Hset.
  destruct (client_req _ _ chain 0 (set_msg k v)) as [chain' r] eqn:Hreq.
  assert (Hr : exists response, r = Some (Ret response)).
  { simpl in Hset. destruct r as [[response|e]|]; [eauto|done..]. }
  destruct Hr as [response ->]. clear Hset.
  pose proof (answered_set_is_committed unreachable_peer remote_failure chain
                k v response Hl Hnd) as Hc.
  rewrite Hreq in Hc. cbn [fst snd] in Hc.
  destruct (Hc eq_refl) as (_ & Hlen & Hl' & Hnd' & ver & Hcom). clear Hc.
  cbn [fst].
  destruct (_get_least_loaded_server self) as [server|e] eqn:Hleast.
  2:{ unfold _get_least_loaded_server in Hleast.
      by destruct (response_times self) as [|[c e'] t]. }
  assert (Hi : (conn_index server < length chain')%nat).
  { apply least_loaded_in_keys in Hleast.
    apply list_elem_of_fmap in Hleast as ([c e] & -> & Hin).
    rewrite Forall_forall in Hreach. rewrite Hlen. by apply (Hreach (c, e)). }
  pose proof (committed_is_read_back unreachable_peer remote_failure chain'
                k v ver false (conn_index server) Hl' Hnd' Hcom Hi) as Hget.
  rewrite (get_result _ elapsed_time self k server (ok_val_msg v) Hleast).
  - done.
  - unfold via_cluster. by rewrite Hget.
Qed.

Lemma client_set_then_get_witness :
  (get (via_cluster (fun _ => Raise TransportError)
          (fun _ => Raise TransportError)
          (client_req (fun _ => Raise TransportError)
             (fun _ => Raise TransportError) CraqCluster 0
             (set_msg "k" "0")).1)
       (S754_finite false 4503599627370496 (-53)) busy_client "k").2 =
  Ret (true, Some "0").
Proof.
  apply (client_set_then_get (fun _ => Raise TransportError)
           (fun _ => Raise TransportError) CraqCluster busy_client "k" "0"
           (S754_finite false 4503599627370496 (-53))).
  - exact CraqCluster_linked.
  - exact (CraqCluster_no_tail_dirty "k").
  - exists (mkConn 0 "a"), [mkConn 1 "b"; mkConn 2 "c"; mkConn 3 "d"]. done.
  - discriminate.
  - repeat constructor.
  - vm_compute. reflexivity.
Defined.

(** X10. A read never adds, drops or reorders connections: whatever the
    replica answers, the client has the same connections and one
    estimate per connection in the same order as before, and only the
    estimate of the connection it picked can have changed. *)
Theorem reads_keep_the_connections
    (send : TcpClient -> JsonMessage -> option JsonMessage)
    (elapsed_time : pyfloat) (self : CraqClient) (key : string) :
  let self' := (get send elapsed_time self key).1 in
  conns self' = conns self /\
  (response_times self').*1 = (response_times self).*1 /\
  forall server c,
    _get_least_loaded_server self = Ret server ->
    c <> server ->
    dict_get (response_times self') c = dict_get (response_times self) c.
Proof.
  unfold get.
  destruct (_get_least_loaded_server self) as [server|e] eqn:Hleast; [|done].
  destruct (send server (get_msg key)) as [response|]; [|done].
  pose proof (least_loaded_in_keys self server Hleast) as Hin.
  destruct (dict_get_in _ _ Hin) as [previous ->].
  assert (Hgoal : forall x : pyfloat,
             let self' := mkClient (conns self)
                            (dict_set (response_times self) server x) in
             conns self' = conns self /\
             (response_times self').*1 = (response_times self).*1 /\
             forall server0 c,
               Ret server = Ret server0 -> c <> server0 ->
               dict_get (response_times self') c =
                 dict_get (response_times self) c).
  { intros x. simpl. split; [done|]. split; [by apply dict_set_keys|].
    intros server0 c [= <-] Hne. by apply dict_get_set_ne. }
  destruct (j_status response) as [status|]; [|apply Hgoal].
  case_decide; [|apply Hgoal]. destruct (j_val response); apply Hgoal.
Qed.

(** ** What a GET can answer *)

(** X11. Whatever the next replica answers to the QUERY, a GET ends in
    one of three ways: it fails with the error the send raised; it
    answers "Key not found", and then the replica has no clean entry for
    the key; or it answers OK with a value that the replica holds for
    that very key, clean or dirty. *)
Theorem get_answers_from_its_key {W : Type}
    (send : JsonMessage -> W -> W * result JsonMessage)
    (self : CraqServer) (req : KVGetRequest) (w : W) :
  let k := get_key req in
  let r := (_get send self req w).2 in
  (exists e, r = Raise e /\ (send (query_msg k) w).2 = Raise e) \/
  (r = Ret (status_msg "Key not found") /\ store self !! k = None) \/
  (exists v, r = Ret (ok_val_msg v) /\
             ((exists ver, store self !! k = Some (ver, v)) \/
              (exists d ver, temp_store self !! k = Some d /\
                             d !! ver = Some v))).
Proof.
  unfold _get. simpl.
  change (dirty_versions (with_lock self (get_key req)) (get_key req))
    with (dirty_versions self (get_key req)).
  destruct (dirty_versions self (get_key req)) as [d|] eqn:Hd.
  - apply dirty_versions_Some in Hd as [Hd _].
    destruct (send (query_msg (get_key req)) w) as [w' [resp|e]]; simpl.
    + destruct (d !! j_ver resp) as [val|] eqn:Hv; simpl.
      * right. right. exists val. split; [done|]. right. eauto.
      * destruct (store self !! get_key req) as [[cv val]|]; simpl.
        -- right. right. exists val. split; [done|]. left. eauto.
        -- right. left. done.
    + left. eauto.
  - destruct (store self !! get_key req) as [[cv val]|]; simpl.
    + right. right. exists val. split; [done|]. left. eauto.
    + right. left. done.
Qed.

(** ** What a replica sends on *)

(** X12. While it handles a message a replica sends at most one message
    to its successor, about the same key: a QUERY when it handles a GET
    or a QUERY, so that a read never makes a replica further down write,
    and, when it handles a SET, a SET of the same value, which is the
    very message it received unless the replica is the head. *)
Theorem forwards_at_most_one_message
    (answer : JsonMessage -> result JsonMessage)
    (self : CraqServer) (msg : JsonMessage) (log : list JsonMessage) :
  let log' := (_process_req (logging_stub answer) self msg log).1.2 in
  log' = log \/
  exists m,
    log' = m :: log /\
    j_key m = j_key msg /\
    (j_type msg <> Some "SET" -> j_type m = Some "QUERY") /\
    (j_type msg = Some "SET" ->
     j_type m = Some "SET" /\ j_val m = j_val msg /\
     (is_Some (prev self) -> m = msg)).
Proof.
  destruct (process_req_sends (logging_stub answer) self msg log)
    as [Hw|(m & Hw & Hrest)]; [by left|].
  right. exists m. by rewrite Hw.
Qed.

(** ** A forwarded write delivered again *)

Lemma with_lock_idemp (self : CraqServer) (key : string) :
  with_lock (with_lock self key) key = with_lock self key.
Proof.
  unfold with_lock. simpl. f_equal. set_solver.
Qed.

(** The state of a replica that has committed a forwarded write. *)
Lemma _set_returns {W : Type}
    (send : JsonMessage -> W -> W * result JsonMessage)
    (self : CraqServer) (req : KVSetRequest) (w : W) (p : string)
    (response : JsonMessage) :
  prev self = Some p ->
  (_set send self req w).2 = Ret response ->
  (_set send self req w).1.1 =
    mkServer (name self) (next self) (prev self) (tail self)
      (match next self with
       | Some _ =>
           <[set_key req :=
               delete (version req)
                      (default ∅ (temp_store self !! set_key req))]>
             (temp_store self)
       | None => temp_store self
       end)
      (<[set_key req := (version req, set_val req)]> (store self))
      ({[set_key req]} ∪ locks self).
Proof.
  intros Hp. assert (Hst : stamp_version self req = Ret req).
  { unfold stamp_version. by rewrite Hp. }
  destruct (next self) as [n|] eqn:Hn.
  - rewrite (_set_forward send self req req w n Hn Hst). simpl.
    destruct (send (set_json req) w) as [w' [resp|e]]; [|done].
    intros _. unfold clean_insert, set_store, set_temp_store. simpl.
    by rewrite Hn.
  - rewrite (_set_tail send self req w Hn), Hst. intros _.
    unfold clean_insert, set_store. simpl. by rewrite Hn.
Qed.

(** X13. On a replica that has a predecessor, a message can be
    delivered twice: if the second delivery is answered, the replica
    ends in the state a single answered delivery gives, whether the
    first delivery failed on the forward or went through. *)
Theorem redelivery_is_harmless {W : Type}
    (send1 send2 send3 : JsonMessage -> W -> W * result JsonMessage)
    (self : CraqServer) (msg : JsonMessage) (w1 w2 w3 : W) (p : string)
    (r2 r3 : JsonMessage) :
  prev self = Some p ->
  let once := _process_req send3 self msg w3 in
  let first := _process_req send1 self msg w1 in
  let second := _process_req send2 first.1.1 msg w2 in
  once.2 = Ret r3 ->
  second.2 = Ret r2 ->
  second.1.1 = once.1.1.
Proof.
  intros Hp. cbn zeta.
  destruct (decide (j_type msg = Some "SET")) as [Hs|Hns].
  - unfold _process_req. rewrite Hs. simpl.
    destruct (mkKVSetRequest msg) as [req|e]; [|done].
    intros Honce.
    rewrite (_set_returns send3 self req w3 p r3 Hp Honce).
    assert (Hst : stamp_version self req = Ret req).
    { unfold stamp_version. by rewrite Hp. }
    set (first := (_set send1 self req w1).1.1).
    assert (Hfirst :
      prev first = Some p /\ next first = next self /\
      name first = name self /\ tail first = tail self /\
      locks first = {[set_key req]} ∪ locks self /\
      (store first = store self \/
       store first = <[set_key req := (version req, set_val req)]> (store self)) /\
      (next self = None -> temp_store first = temp_store self) /\
      (is_Some (next self) ->
       exists d, temp_store first = <[set_key req := d]> (temp_store self) /\
                 delete (version req) d =
                   delete (version req)
                          (default ∅ (temp_store self !! set_key req)))).
    { subst first. destruct (next self) as [n|] eqn:Hn.
      - rewrite (_set_forward send1 self req req w1 n Hn Hst). simpl.
        destruct (send1 (set_json req) w1) as [w' [resp|e]]; simpl;
          rewrite ?Hn; split_and!; try done; try (by left); try (by right).
        + intros _. eexists. split; [done|]. by rewrite delete_delete_eq.
        + intros _. eexists. split; [done|]. by rewrite delete_insert_eq.
      - rewrite (_set_tail send1 self req w1 Hn), Hst. simpl.
        rewrite ?Hn. split_and!; try done; try (by right). }
    destruct Hfirst as (Hp1 & Hn1 & Hnm & Htl & Hlk & Hstore & Htail & Hfwd).
    intros Hsecond.
    rewrite (_set_returns send2 first req w2 p r2 Hp1 Hsecond).
    rewrite Hp1, Hn1, Hnm, Htl, Hlk, Hp. f_equal.
    + destruct (next self) as [n|] eqn:Hn; [|by apply Htail].
      destruct Hfwd as (d & -> & Hd); [eauto|].
      rewrite lookup_insert_eq, insert_insert_eq. simpl. by rewrite Hd.
    + destruct Hstore as [->| ->]; [done|]. by rewrite insert_insert_eq.
    + set_solver.
  - unfold _process_req.
    destruct (decide (j_type msg = Some "GET")) as [Hg|_].
    { unfold mkKVGetRequest. destruct (j_key msg) as [k|]; [|done].
      intros _ _. rewrite !_get_stores. apply with_lock_idemp. }
    rewrite !(decide_False (P := j_type msg = Some "SET")) by done.
    destruct (decide (j_type msg = Some "QUERY")) as [Hq|Hnq]; [|done].
    unfold mkKVQueryRequest. destruct (j_key msg) as [k|]; [|done].
    intros _ _. rewrite !_query_stores. apply with_lock_idemp.
Qed.

Lemma redelivery_is_harmless_witness :
  let b := new_server "b" (Some "c") (Some "a") "d" in
  let msg := set_version (set_msg "k" "v") (Some 1) in
  (_process_req ok_stub (_process_req failing_stub b msg []).1.1 msg []).1.1 =
  (_process_req ok_stub b msg []).1.1.
Proof.
  intros b msg.
  apply (redelivery_is_harmless failing_stub ok_stub ok_stub b msg [] [] []
           "a" (status_msg "OK") (status_msg "OK")).
  - reflexivity.
  - vm_compute. reflexivity.
  - vm_compute. reflexivity.
Defined.

(** At the head it is not: the second delivery gets the next version,
    and the version of the delivery that failed stays dirty. *)
Example redelivery_at_the_head :
  temp_store
    (_process_req ok_stub
       (_process_req failing_stub (new_server "a" (Some "b") None "d")
                     (set_msg "k" "v") []).1.1
       (set_msg "k" "v") []).1.1 = {[ "k" := {[ Some 1 := "v" ]} ]} /\
  temp_store
    (_process_req ok_stub (new_server "a" (Some "b") None "d")
                  (set_msg "k" "v") []).1.1 = {[ "k" := ∅ ]}.
Proof. vm_compute. done. Qed.

(** ** Between two requests *)

Lemma linked_from_drop_prev (i : nat) : forall (c : list CraqServer) (b : bool),
  linked_from b c ->
  linked_from (match i with O => b | S _ => true end) (drop i c).
Proof.
  induction i as [|i IH]; intros c b Hl; [by rewrite drop_0|].
  destruct c as [|s t]; [done|]. simpl. destruct Hl as (_ & _ & Hl).
  specialize (IH t true Hl). by destruct i.
Qed.

Lemma same_entries_dirty (key : string) (c c' : list CraqServer) :
  Forall2 (same_entries key) c c' ->
  Forall (fun s => dirty_versions s key = None) c ->
  Forall (fun s => dirty_versions s key = None) c'.
Proof.
  induction 1 as [|s s' t t' [_ Ht] _ IH]; intros Hc; [done|].
  apply Forall_cons in Hc as [Hs Hc]. constructor; [|by apply IH].
  unfold dirty_versions in *. by rewrite Ht.
Qed.

(** A request leaves no dirty version behind on a chain that had none. *)
Lemma client_req_dirty_free
    (unreachable_peer : JsonMessage -> result JsonMessage)
    (remote_failure : exn -> result JsonMessage)
    (chain : list CraqServer) (i : nat) (msg : JsonMessage) (key : string) :
  linked chain ->
  (forall hd, head chain = Some hd -> all_int hd) ->
  Forall (fun s => dirty_versions s key = None) chain ->
  Forall (fun s => dirty_versions s key = None)
         (client_req unreachable_peer remote_failure chain i msg).1.
Proof.
  intros [_ Hl] Hint Hfree.
  destruct (decide (j_type msg = Some "SET")) as [Hs|Hns]; cycle 1.
  { apply (same_entries_dirty key chain); [|done].
    apply client_req_other_key. by left. }
  destruct (decide (j_key msg = Some key)) as [Hk|Hnk]; cycle 1.
  { apply (same_entries_dirty key chain); [|done].
    apply client_req_other_key. by right. }
  unfold client_req.
  destruct (drop i chain) as [|self rest] eqn:Hdrop; [done|].
  pose proof (linked_from_drop_prev i chain false Hl) as Hl'.
  rewrite Hdrop in Hl'.
  assert (Hfree' : Forall (fun s => dirty_versions s key = None) (self :: rest)).
  { rewrite <- Hdrop. by apply Forall_drop. }
  assert (Htake : Forall (fun s => dirty_versions s key = None) (take i chain)).
  { by apply Forall_take. }
  destruct (j_val msg) as [v|] eqn:Hv; cycle 1.
  { unfold serve, _process_req, mkKVSetRequest. rewrite Hs, Hk, Hv. simpl.
    apply Forall_app. done. }
  assert (Hst : exists req',
             stamp_version self
               {| set_key := key; set_val := v; set_json := msg |} = Ret req').
  { destruct i as [|i].
    - rewrite drop_0 in Hdrop. subst chain.
      assert (Hp : prev self = None).
      { destruct Hl as (Hprev & _). destruct (prev self) as [p|] eqn:E; [|done].
        by assert (false = true) by (apply Hprev; eauto). }
      destruct (head_process_req_all_int
                  (fun m w => stub_send unreachable_peer remote_failure w m)
                  self msg rest Hp (Hint self eq_refl)) as [_ Hstamp].
      destruct (Hstamp {| set_key := key; set_val := v; set_json := msg |})
        as (c & _ & Hc); [|eauto].
      unfold mkKVSetRequest. by rewrite Hk, Hv.
    - destruct Hl' as (Hprev & _).
      destruct (proj2 Hprev eq_refl) as [p Hp].
      eexists. unfold stamp_version. by rewrite Hp. }
  destruct Hst as [req' Hst].
  pose proof (serve_set_clean unreachable_peer remote_failure key v rest self
                msg _ req' Hl' Hfree' Hs Hk Hv Hst) as Hclean.
  cbn zeta in Hclean.
  destruct (serve _ _ self rest msg) as [[self' rest'] r].
  cbn [fst snd] in *. apply Forall_app. done.
Qed.

Lemma client_req_head_all_int
    (unreachable_peer : JsonMessage -> result JsonMessage)
    (remote_failure : exn -> result JsonMessage)
    (chain : list CraqServer) (i : nat) (msg : JsonMessage) :
  linked chain ->
  (forall hd, head chain = Some hd -> all_int hd) ->
  forall hd', head (client_req unreachable_peer remote_failure chain i msg).1
              = Some hd' ->
              all_int hd'.
Proof.
  intros [Hne Hl] Hint hd'. destruct chain as [|hd rest]; [done|].
  clear Hne. destruct i as [|i].
  - rewrite client_req_head. cbn [fst head]. intros [= <-]. unfold serve.
    apply head_process_req_all_int; [|by apply Hint].
    destruct Hl as (Hprev & _). destruct (prev hd) as [p|] eqn:E; [|done].
    by assert (false = true) by (apply Hprev; eauto).
  - unfold client_req. simpl.
    destruct (drop i rest) as [|self rest'].
    + simpl. intros [= <-]. by apply Hint.
    + destruct (serve _ _ self rest' msg) as [[self' rest''] r]. simpl.
      intros [= <-]. by apply Hint.
Qed.

Lemma client_req_quiescent
    (unreachable_peer : JsonMessage -> result JsonMessage)
    (remote_failure : exn -> result JsonMessage)
    (chain : list CraqServer) (i : nat) (msg : JsonMessage) :
  quiescent chain ->
  quiescent (client_req unreachable_peer remote_failure chain i msg).1.
Proof.
  intros (Hl & Hfree & Hint). split; [|split].
  - pose proof (client_req_keeps_shape unreachable_peer remote_failure chain
                  i msg) as Hshape.
    destruct Hl as [Hne Hl]. split.
    + apply keeps_shape_length in Hshape. intros E. rewrite E in Hshape.
      by destruct chain.
    + by apply (keeps_shape_linked_from chain).
  - apply Forall_forall. intros s Hs key.
    assert (Hkey : Forall (fun s' => dirty_versions s' key = None)
                     (client_req unreachable_peer remote_failure chain i
                                 msg).1).
    { apply client_req_dirty_free; [done|done|].
      eapply Forall_impl; [exact Hfree|]. by intros s' Hs'. }
    rewrite Forall_forall in Hkey. by apply Hkey.
  - by apply client_req_head_all_int.
Qed.

Lemma run_quiescent
    (unreachable_peer : JsonMessage -> result JsonMessage)
    (remote_failure : exn -> result JsonMessage)
    (history : list (nat * JsonMessage)) : forall chain : list CraqServer,
  quiescent chain ->
  quiescent (run unreachable_peer remote_failure chain history).
Proof.
  induction history as [|[i msg] history' IH]; intros chain Hq; [done|].
  simpl. apply IH. by apply client_req_quiescent.
Qed.

Lemma CraqCluster_quiescent : quiescent CraqCluster.
Proof.
  split; [exact CraqCluster_linked|]. split.
  - repeat constructor.
  - intros hd [= <-]. apply new_server_all_int.
Qed.

(** X14. On the cluster, after any history of client messages to any of
    its replicas, no replica holds a dirty version of any key: a dirty
    entry lives only while the write that made it is on its way down the
    chain. *)
Theorem no_dirty_version_between_requests
    (unreachable_peer : JsonMessage -> result JsonMessage)
    (remote_failure : exn -> result JsonMessage)
    (history : list (nat * JsonMessage)) :
  Forall (fun s => forall key, dirty_versions s key = None)
         (run unreachable_peer remote_failure CraqCluster history).
Proof.
  by destruct (run_quiescent unreachable_peer remote_failure history
                 CraqCluster CraqCluster_quiescent) as (_ & Hfree & _).
Qed.



(** ** The cluster as a map *)








(** Two writes of "k" with a read and a write of "j" in between: "k" is
    at version 2 with the second value. *)
Example replay_two_writes :
  replay ∅ [Write "k" "0"; Read 2 "k"; Write "j" "x"; Write "k" "1"] !! "k"
  = Some (2, "1").
Proof. vm_compute. reflexivity. Qed.

(** ** Reads served by one replica *)




(** ** What [get] hands back *)

(** X18. A client without connection cannot read: [get] raises
    [ValueError].  Otherwise, once the replica has responded, the
    estimate is updated before the response is looked at, and [get]
    returns [(True, val)] for the status "OK", [(False, None)] for any
    other status, and raises [KeyError] when the response has no status,
    or has the status "OK" and no value. *)
Theorem get_returns
    (send : TcpClient -> JsonMessage -> option JsonMessage)
    (elapsed_time : pyfloat) (self : CraqClient) (key : string) :
  (response_times self = [] ->
   get send elapsed_time self key = (self, Raise ValueError)) /\
  forall server response previous,
    _get_least_loaded_server self = Ret server ->
    send server (get_msg key) = Some response ->
    dict_get (response_times self) server = Some previous ->
    dict_get (response_times (get send elapsed_time self key).1) server =
      Some (fadd (fmul elapsed_time f0_3) (fmul previous f0_7)) /\
    (get send elapsed_time self key).2 =
      match j_status response with
      | None => Raise KeyError
      | Some status =>
          if decide (status = "OK") then
            match j_val response with
            | Some val => Ret (true, Some val)
            | None => Raise KeyError
            end
          else Ret (false, None)
      end.
Proof.
  split.
  - intros Hempty. unfold get, _get_least_loaded_server. by rewrite Hempty.
  - intros server response previous Hleast Hsend Hprev. split.
    + unfold get. rewrite Hleast, Hsend, Hprev.
      assert (Hset : dict_get (dict_set (response_times self) server
                        (fadd (fmul elapsed_time f0_3) (fmul previous f0_7)))
                       server =
                     Some (fadd (fmul elapsed_time f0_3) (fmul previous f0_7))).
      { pose proof (least_loaded_in_keys self server Hleast) as Hin.
        clear -Hin. induction (response_times self) as [|[k0 v0] t IH]; simpl.
        - by inversion Hin.
        - destruct (decide (k0 = server)) as [->|Hne]; simpl.
          + by rewrite decide_True.
          + rewrite decide_False by done. apply IH. set_solver. }
      destruct (j_status response) as [status|]; [|done].
      case_decide; [|done]. by destruct (j_val response).
    + by apply (get_result send elapsed_time self key server).
Qed.
